(** * func-kit: the reentrant asynchronous lock ([src/utils/hof/lock.ts])

    The lock wraps an asynchronous function.  Every call is funnelled through
    a serialized queue ([queued]); before the real body runs, the queued
    executor waits until a depth counter, mirrored in a [BehaviorSubject],
    is zero.  [beginLock]/[endLock] move the counter, [endLock] additionally
    pushes a sentinel call through the queue and awaits it.

    The runtime is single threaded and cooperatively scheduled.  It is
    embedded as a labelled transition system: an [input] is either a call of
    the public interface or one scheduler turn (the delivery of a broadcast
    to a handler, the continuation of an [await], the settlement of the
    user's promise).  A step is a total, executable function; the effects a
    caller can observe are recorded as a list of [event]s.  Safety
    properties are proved for every interleaving of inputs, which covers
    the microtask order of any concrete engine.

    Three things are abstracted.  The promise a caller holds for a call of
    [wrappedFn], which returns what the promise of [executeFn] delivers, is
    identified with the promise of the call's queue entry, whose settlement
    is the event [ESettle]; the promise [endLock] returns is a promise of
    its own, which follows the promise of the sentinel entry [endLock]
    awaits and is read off the trace by [endLock_promise].  The completion
    of the running entry and the start of the next one are one turn.  The
    depth counter is a JavaScript number holding small non-negative
    integers; it is modelled by [Z].

    [queued], [BehaviorSubject] and [first] are imported by lock.ts from
    files that are not among the sources at hand; they are modelled from
    the specification, each under a comment that says so. *)

From stdpp Require Import base tactics option list numbers strings sets.
From Stdlib Require Import ZArith Lia Sorted.

Local Open Scope Z_scope.

(** ** Values *)

(** JavaScript values that flow through the wrapper as arguments and
    results.  A symbol is identified by the moment of its creation. *)
Inductive value :=
| VUndefined
| VNull
| VBool (b : bool)
| VNum (n : Z)
| VStr (s : string)
| VSymbol (id : nat).

#[global] Instance value_eq_dec : EqDecision value.
Proof. solve_decision. Defined.

(** [declare const CANCELED_SYMBOL: unique symbol] (types.d.ts). *)
Definition CANCELED_SYMBOL : value := VSymbol 0.

(** [const NEVER_VALUE = Symbol('never')] (lock.ts, line 20). *)
Definition NEVER_VALUE : value := VSymbol 1.

(** Modelled from the spec: the "first element of an argument list"
    accessor imported from [../math/first]; its file is not part of the
    sources at hand.  An empty list has no first element and yields null. *)
Definition first (args : list value) : value :=
  match args with
  | [] => VNull
  | x :: _ => x
  end.

(** How a promise settles. *)
Inductive outcome :=
| Fulfilled (v : value)
| Rejected (err : value).

#[global] Instance outcome_eq_dec : EqDecision outcome.
Proof. solve_decision. Defined.

(** A user function for the examples: its promise resolves with the first
    argument. *)
Definition echo (args : list value) : outcome := Fulfilled (first args).

(** ** Observable events *)

Inductive event :=
| ECall (c : nat) (args : list value)    (* the wrapper was called; the call got number c *)
| EBarrier (c : nat)                     (* endLock submitted its sentinel as call c *)
| ECheck (c : nat) (d : Z)               (* the wait of call c read lockSubject.data = d *)
| ESubscribe (c : nat) (sid : nat)       (* lockSubject.once(handler) on subject sid *)
| EInvoke (c : nat) (args : list value)  (* promise(...args) was called for call c *)
| ESkip (c : nat)                        (* call c took the sentinel branch *)
| ESettle (c : nat) (r : outcome).       (* the promise of call c settled with r *)

#[global] Instance event_eq_dec : EqDecision event.
Proof. solve_decision. Defined.

(** The call an event is about. *)
Definition ev_call (ev : event) : nat :=
  match ev with
  | ECall c _ | EBarrier c | ECheck c _ | ESubscribe c _
  | EInvoke c _ | ESkip c | ESettle c _ => c
  end.

(** ** The serialized queue *)

(** One invocation of the queued function: its number in submission order
    and its argument list. *)
Record entry := mkEntry { e_id : nat; e_args : list value }.

#[global] Instance entry_eq_dec : EqDecision entry.
Proof. solve_decision. Defined.

(** Modelled from the spec: the state a [queued] wrapper owns; only its
    declaration (types.d.ts, [IWrappedFn] and [queued]) is among the
    sources.  "Maintains a FIFO of pending entries and a single currently
    running flag"; [q_discard] records that [cancel] has discarded the
    delivery of the running call's result. *)
Record queue := mkQueue {
  q_running : option entry;
  q_discard : bool;
  q_pending : list entry }.

(** Nothing running, nothing pending. *)
Definition q_empty : queue := mkQueue None false [].

(** Modelled from the spec: "A call either starts immediately (queue empty
    and nothing running) or appends and waits its turn."  The boolean tells
    whether the call started. *)
Definition q_submit (e : entry) (q : queue) : queue * bool :=
  match q_running q, q_pending q with
  | None, [] => (mkQueue (Some e) false [], true)
  | _, _ => (mkQueue (q_running q) (q_discard q) (q_pending q ++ [e]), false)
  end.

(** Modelled from the spec: "On completion of the running call, the next
    queued entry starts." *)
Definition q_finish (q : queue) : queue :=
  match q_pending q with
  | [] => mkQueue None false []
  | e :: rest => mkQueue (Some e) false rest
  end.

(** What the caller of a dropped entry gets. *)
Definition canceled (e : entry) : event :=
  ESettle (e_id e) (Fulfilled CANCELED_SYMBOL).

(** Modelled from the spec: "[clear()] drains not-yet-started entries,
    resolving each with a dedicated cancellation marker value instead of
    invoking the wrapped function." *)
Definition q_clear (q : queue) : queue * list event :=
  (mkQueue (q_running q) (q_discard q) [], map canceled (q_pending q)).

(** Modelled from the spec: "[cancel()] performs [clear()] and additionally
    discards in-flight result delivery."  The caller of the running call
    is answered with the cancellation marker; the call itself keeps
    running (cancellation is cooperative) and its result is dropped. *)
Definition q_cancel (q : queue) : queue * list event :=
  let '(q1, evs) := q_clear q in
  match q_running q1 with
  | Some e =>
      if q_discard q1 then (q1, evs)
      else (mkQueue (Some e) true (q_pending q1), evs ++ [canceled e])
  | None => (q1, evs)
  end.

(** What the completion of the running call delivers to its caller. *)
Definition q_deliver (q : queue) (e : entry) (r : outcome) : list event :=
  if q_discard q then [] else [ESettle (e_id e) r].

(** The entries of a queue in the order in which they run. *)
Definition q_entries (q : queue) : list entry :=
  match q_running q with
  | Some e => e :: q_pending q
  | None => q_pending q
  end.

(** Entries that carry increasing numbers. *)
Definition ascending (l : list entry) : Prop :=
  StronglySorted (fun a b => (e_id a < e_id b)%nat) l.

(** The entries of a queue whose caller has not been answered yet: the
    pending ones, and the running one unless [cancel] has answered it. *)
Definition q_open (q : queue) : list entry :=
  match q_running q with
  | Some e => if q_discard q then q_pending q else e :: q_pending q
  | None => q_pending q
  end.

(** ** A serialized queue around a user function *)

Module Queued.
Section Queued.

(** The wrapped asynchronous function: the settlement of the promise it
    returns for an argument list. *)
Variable promise : list value -> outcome.

(** The queue and the number the next call gets. *)
Record state := mkState { queue_of : queue; next_call : nat }.

(** [queued(promise)]. *)
Definition init : state := mkState q_empty 0.

(** What can happen to the queue: a call of its interface, or the
    settlement of the promise the wrapped function returned for the
    running entry. *)
Inductive input :=
| Call (args : list value)   (* wrappedFn(...args) *)
| Settle                     (* the running call's promise settles *)
| Clear                      (* wrappedFn.clear() *)
| Cancel.                    (* wrappedFn.cancel() *)

(** Starting an entry calls the user function. *)
Definition start (e : entry) : list event := [EInvoke (e_id e) (e_args e)].

(** One turn of the queue; [None] when the input is not enabled. *)
Definition step (s : state) (i : input) : option (state * list event) :=
  match i with
  | Call args =>
      let e := mkEntry (next_call s) args in
      let '(q, started) := q_submit e (queue_of s) in
      Some (mkState q (S (next_call s)),
            ECall (e_id e) args :: (if started then start e else []))
  | Settle =>
      match q_running (queue_of s) with
      | Some e =>
          let q := q_finish (queue_of s) in
          Some (mkState q (next_call s),
                q_deliver (queue_of s) e (promise (e_args e))
                ++ match q_running q with Some e' => start e' | None => [] end)
      | None => None
      end
  | Clear =>
      let '(q, evs) := q_clear (queue_of s) in
      Some (mkState q (next_call s), evs)
  | Cancel =>
      let '(q, evs) := q_cancel (queue_of s) in
      Some (mkState q (next_call s), evs)
  end.

(** A sequence of turns and the events it leaves. *)
Fixpoint run (s : state) (inputs : list input) : option (state * list event) :=
  match inputs with
  | [] => Some (s, [])
  | i :: rest =>
      match step s i with
      | Some (s1, evs) =>
          match run s1 rest with
          | Some (s2, evs') => Some (s2, evs ++ evs')
          | None => None
          end
      | None => None
      end
  end.

(** The states the queue can be in, each with the events so far. *)
Inductive reach : state -> list event -> Prop :=
| reach_init : reach init []
| reach_step s tr i s' evs :
    reach s tr -> step s i = Some (s', evs) -> reach s' (tr ++ evs).

(** The event invokes the body of call [c] or settles its promise. *)
Definition touches (c : nat) (ev : event) : Prop :=
  match ev with
  | EInvoke c' _ | ESettle c' _ => c' = c
  | _ => False
  end.

(** What every reachable state of the queue satisfies: call numbers are
    fresh and increasing, a pending entry has been neither invoked nor
    answered, and the body of the running entry has been invoked. *)
Record wf (s : state) (tr : list event) : Prop := mkWf {
  wf_bound : Forall (fun e => (e_id e < next_call s)%nat) (q_entries (queue_of s));
  wf_sorted : ascending (q_entries (queue_of s));
  wf_trace : Forall (fun ev => (ev_call ev < next_call s)%nat) tr;
  wf_idle : q_running (queue_of s) = None -> q_pending (queue_of s) = [];
  wf_pending : Forall (fun p => Forall (fun ev => ~ touches (e_id p) ev) tr)
                 (q_pending (queue_of s));
  wf_running : forall e, q_running (queue_of s) = Some e ->
                 EInvoke (e_id e) (e_args e) ∈ tr }.

(** Call [c] has left the queue. *)
Definition gone (c : nat) (s : state) : Prop :=
  (c < next_call s)%nat /\
  Forall (fun e => e_id e <> c) (q_entries (queue_of s)).

End Queued.
End Queued.

(** ** The lock *)

Module Lock.
Section Lock.

(** [promise], the function handed to [lock]: the settlement of the
    promise it returns for an argument list. *)
Variable promise : list value -> outcome.

(** Modelled from the spec: a [BehaviorSubject] (class declared in
    types.d.ts): "a Subject plus a current-value cell"; [bs_id] is the
    identity of the object, [bs_once] the handlers registered with
    [once], in subscription order, named by the call they belong to. *)
Record BehaviorSubject := mkSubject {
  bs_id : nat;
  bs_data : Z;
  bs_once : list nat }.

(** [new BehaviorSubject(data)]. *)
Definition new_subject (id : nat) (data : Z) : BehaviorSubject :=
  mkSubject id data [].

(** Modelled from the spec: "[next] updates the cell before notifying";
    the subscribers are notified asynchronously, in subscription order,
    and a [once] listener is deregistered by its notification.  Returns
    the handlers to notify. *)
Definition bs_next (d : Z) (b : BehaviorSubject) : BehaviorSubject * list nat :=
  (mkSubject (bs_id b) d [], bs_once b).

(** [subject.once(handler)]. *)
Definition bs_subscribe_once (c : nat) (b : BehaviorSubject) : BehaviorSubject :=
  mkSubject (bs_id b) (bs_data b) (bs_once b ++ [c]).

(** Where the executor of the running call stands. *)
Inductive phase :=
| Waiting     (* awaiting waitForUnlock(), not yet resolved *)
| Unlocked    (* waitForUnlock() resolved, continuation not yet run *)
| InBody.     (* promise(...args) called, awaiting its result *)

(** The variables the closure of [lock] owns. *)
Record state := mkState {
  lockCount : Z;
  lockSubject : BehaviorSubject;
  executeFn : queue;
  run_phase : phase;
  notified : list nat;     (* handlers a broadcast has scheduled *)
  next_call : nat }.

(** [lock(promise)] (lines 30-31): depth 0, a new subject holding 0, an
    empty queue. *)
Definition init : state :=
  mkState 0 (new_subject 0 0) q_empty Waiting [] 0.

(** Assignments to one variable of the closure. *)
Definition set_lockCount (n : Z) (s : state) : state :=
  mkState n (lockSubject s) (executeFn s) (run_phase s) (notified s) (next_call s).
Definition set_lockSubject (b : BehaviorSubject) (s : state) : state :=
  mkState (lockCount s) b (executeFn s) (run_phase s) (notified s) (next_call s).
Definition set_executeFn (q : queue) (s : state) : state :=
  mkState (lockCount s) (lockSubject s) q (run_phase s) (notified s) (next_call s).
Definition set_phase (p : phase) (s : state) : state :=
  mkState (lockCount s) (lockSubject s) (executeFn s) p (notified s) (next_call s).
Definition set_notified (l : list nat) (s : state) : state :=
  mkState (lockCount s) (lockSubject s) (executeFn s) (run_phase s) l (next_call s).
Definition set_next_call (n : nat) (s : state) : state :=
  mkState (lockCount s) (lockSubject s) (executeFn s) (run_phase s) (notified s) n.

(** [lockSubject.next(d)]. *)
Definition broadcast (d : Z) (s : state) : state :=
  let '(b, hs) := bs_next d (lockSubject s) in
  set_notified (notified s ++ hs) (set_lockSubject b s).

(** [resolve()] of the promise [waitForUnlock] built for call [c]. *)
Definition resolve (c : nat) (s : state) : state :=
  match q_running (executeFn s), run_phase s with
  | Some e, Waiting => if decide (e_id e = c) then set_phase Unlocked s else s
  | _, _ => s
  end.

(** [handler] (lines 38-44), for the wait of call [c]. *)
Definition handler (c : nat) (s : state) : state * list event :=
  let d := bs_data (lockSubject s) in
  if decide (d = 0) then (resolve c s, [ECheck c d])
  else (set_lockSubject (bs_subscribe_once c (lockSubject s)) s,
        [ECheck c d; ESubscribe c (bs_id (lockSubject s))]).

(** [waitForUnlock] (lines 37-46): the promise executor calls [handler]
    synchronously. *)
Definition waitForUnlock (c : nat) (s : state) : state * list event :=
  handler c s.

(** The executor handed to [queued] (lines 55-61), up to its first
    suspension. *)
Definition start (e : entry) (s : state) : state * list event :=
  waitForUnlock (e_id e) (set_phase Waiting s).

(** The running call completes with [r]: the queue delivers the result
    and starts the next entry. *)
Definition finish (e : entry) (r : outcome) (s : state) : state * list event :=
  let q := q_finish (executeFn s) in
  let s1 := set_executeFn q s in
  match q_running q with
  | Some e' =>
      let '(s2, evs) := start e' s1 in
      (s2, q_deliver (executeFn s) e r ++ evs)
  | None => (s1, q_deliver (executeFn s) e r)
  end.

(** The executor after [await waitForUnlock()] (lines 57-60). *)
Definition resume (e : entry) (s : state) : state * list event :=
  if decide (first (e_args e) = NEVER_VALUE)
  then let '(s1, evs) := finish e (Fulfilled VNull) s in (s1, ESkip (e_id e) :: evs)
  else (set_phase InBody s, [EInvoke (e_id e) (e_args e)]).

(** [executeFn(...args)]: a call of the queued executor. *)
Definition submit (args : list value) (s : state) : state * list event :=
  let e := mkEntry (next_call s) args in
  let '(q, started) := q_submit e (executeFn s) in
  let s1 := set_next_call (S (next_call s)) (set_executeFn q s) in
  if started then start e s1 else (s1, []).

(** [wrappedFn] (lines 68-70). *)
Definition wrappedFn (args : list value) (s : state) : state * list event :=
  let '(s1, evs) := submit args s in (s1, ECall (next_call s) args :: evs).

(** [wrappedFn.beginLock] (lines 102-105). *)
Definition beginLock (s : state) : state :=
  let s1 := set_lockCount (lockCount s + 1) s in
  broadcast (lockCount s1) s1.

(** [wrappedFn.endLock] (lines 113-116), up to its suspension at the
    [await]: the counter, the broadcast and the submission of the sentinel
    call.  What the function does when the awaited promise settles is
    [endLock_returns]. *)
Definition endLock (s : state) : state * list event :=
  let s1 := set_lockCount (Z.max (lockCount s - 1) 0) s in
  let s2 := broadcast (lockCount s1) s1 in
  let '(s3, evs) := submit [NEVER_VALUE] s2 in
  (s3, EBarrier (next_call s) :: evs).

(** [wrappedFn.clear] (lines 77-82). *)
Definition clear (s : state) : state * list event :=
  let s1 := broadcast 0 s in
  let s2 := set_lockCount 0 s1 in
  let s3 := set_lockSubject (new_subject (S (bs_id (lockSubject s2))) (lockCount s2)) s2 in
  let '(q, evs) := q_clear (executeFn s3) in
  (set_executeFn q s3, evs).

(** [wrappedFn.cancel] (lines 91-94). *)
Definition cancel (s : state) : state * list event :=
  let '(s1, evs1) := clear s in
  let '(q, evs2) := q_cancel (executeFn s1) in
  (set_executeFn q s1, evs1 ++ evs2).

(** What can happen to the lock: a call of its interface, at any moment,
    or one turn of the scheduler. *)
Inductive input :=
| Call (args : list value)   (* wrappedFn(...args) *)
| BeginLock                  (* wrappedFn.beginLock() *)
| EndLock                    (* wrappedFn.endLock() *)
| Clear                      (* wrappedFn.clear() *)
| Cancel                     (* wrappedFn.cancel() *)
| Deliver                    (* a scheduled handler is called *)
| Resume                     (* the executor continues after its await *)
| Settle.                    (* the user's promise settles *)

(** One turn of the lock; [None] when the input is not enabled: no handler
    is scheduled, the executor is not ready to continue, or no body is
    awaited. *)
Definition step (s : state) (i : input) : option (state * list event) :=
  match i with
  | Call args => Some (wrappedFn args s)
  | BeginLock => Some (beginLock s, [])
  | EndLock => Some (endLock s)
  | Clear => Some (clear s)
  | Cancel => Some (cancel s)
  | Deliver =>
      match notified s with
      | c :: rest => Some (handler c (set_notified rest s))
      | [] => None
      end
  | Resume =>
      match q_running (executeFn s), run_phase s with
      | Some e, Unlocked => Some (resume e s)
      | _, _ => None
      end
  | Settle =>
      match q_running (executeFn s), run_phase s with
      | Some e, InBody => Some (finish e (promise (e_args e)) s)
      | _, _ => None
      end
  end.

(** A sequence of turns and the events it leaves. *)
Fixpoint run (s : state) (inputs : list input) : option (state * list event) :=
  match inputs with
  | [] => Some (s, [])
  | i :: rest =>
      match step s i with
      | Some (s1, evs) =>
          match run s1 rest with
          | Some (s2, evs') => Some (s2, evs ++ evs')
          | None => None
          end
      | None => None
      end
  end.

(** The depth counter in the words of the specification: every
    [beginLock] adds one, every [endLock] takes one away unless the depth
    is already zero, a reset sets it to zero, and nothing else moves it. *)
Definition spec_depth_step (d : Z) (i : input) : Z :=
  match i with
  | BeginLock => d + 1
  | EndLock => if decide (d = 0) then 0 else d - 1
  | Clear | Cancel => 0
  | Call _ | Deliver | Resume | Settle => d
  end.

(** The same along a sequence of inputs. *)
Definition spec_depth (d : Z) (inputs : list input) : Z :=
  fold_left spec_depth_step inputs d.

(** *** Reading a trace *)

(** The depth the wait of call [c] has read last, if it has read one. *)
Fixpoint last_check (c : nat) (tr : list event) : option Z :=
  match tr with
  | [] => None
  | ev :: rest =>
      match last_check c rest with
      | Some d => Some d
      | None =>
          match ev with
          | ECheck c' d => if decide (c' = c) then Some d else None
          | _ => None
          end
      end
  end.

(** The argument list call [c] was submitted with, as the trace records
    it: a call of the wrapper records its own, the sentinel call of
    [endLock] has [NEVER_VALUE] alone. *)
Fixpoint args_of (c : nat) (tr : list event) : option (list value) :=
  match tr with
  | [] => None
  | ECall c' a :: rest => if decide (c' = c) then Some a else args_of c rest
  | EBarrier c' :: rest =>
      if decide (c' = c) then Some [NEVER_VALUE] else args_of c rest
  | _ :: rest => args_of c rest
  end.

(** What an event says about the arguments of its call agrees with the
    submission the trace records. *)
Definition ev_ok (tr : list event) (ev : event) : Prop :=
  match ev with
  | ECall c a => args_of c tr = Some a
  | EBarrier c => args_of c tr = Some [NEVER_VALUE]
  | EInvoke c a => args_of c tr = Some a /\ first a <> NEVER_VALUE
  | ESkip c => exists a, args_of c tr = Some a /\ first a = NEVER_VALUE
  | ECheck _ _ | ESubscribe _ _ | ESettle _ _ => True
  end.

(** The queue and the trace agree on the arguments of every call. *)
Definition consistent (s : state) (tr : list event) : Prop :=
  Forall (fun e => args_of (e_id e) tr = Some (e_args e)) (q_entries (executeFn s)) /\
  Forall (ev_ok tr) tr.

(** The calls whose body was invoked, in the order of the invocations. *)
Fixpoint invoked (tr : list event) : list nat :=
  match tr with
  | [] => []
  | EInvoke c _ :: rest => c :: invoked rest
  | _ :: rest => invoked rest
  end.

(** The calls of the wrapper, in the order of their submission.  A call
    whose first argument is the sentinel is a barrier, not a call of the
    user's function, and is left out. *)
Fixpoint submitted (tr : list event) : list nat :=
  match tr with
  | [] => []
  | ECall c a :: rest =>
      if decide (first a = NEVER_VALUE) then submitted rest else c :: submitted rest
  | _ :: rest => submitted rest
  end.

(** The calls among the entries [l], barriers left out. *)
Fixpoint callers (l : list entry) : list nat :=
  match l with
  | [] => []
  | e :: rest =>
      if decide (first (e_args e) = NEVER_VALUE) then callers rest
      else e_id e :: callers rest
  end.

(** The entries of the queue whose body has not been reached yet. *)
Definition not_started (s : state) : list entry :=
  match q_running (executeFn s), run_phase s with
  | Some e, (Waiting | Unlocked) => e :: q_pending (executeFn s)
  | _, _ => q_pending (executeFn s)
  end.

(** The calls that wait in the queue for their body, in queue order. *)
Definition waiting (s : state) : list nat := callers (not_started s).

(** What the executor makes of entry [e] (lines 57-60): null for the
    sentinel, the settlement of the user's promise otherwise. *)
Definition result_of (e : entry) : outcome :=
  if decide (first (e_args e) = NEVER_VALUE) then Fulfilled VNull
  else promise (e_args e).

(** Entry [e] is through: its promise has settled with the executor's
    result, and if it is a call of the user's function, the body was
    invoked before. *)
Definition done_by (e : entry) (tr : list event) : Prop :=
  exists u1 u2,
    tr = u1 ++ ESettle (e_id e) (result_of e) :: u2 /\
    (first (e_args e) <> NEVER_VALUE -> EInvoke (e_id e) (e_args e) ∈ u1).

(** No reset of the lock. *)
Definition no_reset (i : input) : Prop := i <> Clear /\ i <> Cancel.

(** *** Reachable states and the events that led to them *)

(** The states the lock can be in, each with the events so far. *)
Inductive reach : state -> list event -> Prop :=
| reach_init : reach init []
| reach_step s tr i s' evs :
    reach s tr -> step s i = Some (s', evs) -> reach s' (tr ++ evs).

(** What every reachable state satisfies: the subject mirrors the
    counter, which is never negative; call numbers are fresh and
    increasing; an idle queue holds nothing; and a handler, of which there
    is at most one, subscribed or scheduled, belongs to the running call
    while it waits. *)
Record wf (s : state) (tr : list event) : Prop := mkWf {
  wf_mirror : bs_data (lockSubject s) = lockCount s;
  wf_depth : 0 <= lockCount s;
  wf_bound : Forall (fun e => (e_id e < next_call s)%nat) (q_entries (executeFn s));
  wf_sorted : ascending (q_entries (executeFn s));
  wf_trace : Forall (fun ev => (ev_call ev < next_call s)%nat) tr;
  wf_idle : q_running (executeFn s) = None -> q_pending (executeFn s) = [];
  wf_single : (length (notified s ++ bs_once (lockSubject s)) <= 1)%nat;
  wf_handlers : forall c, c ∈ notified s ++ bs_once (lockSubject s) ->
      run_phase s = Waiting /\ exists e, q_running (executeFn s) = Some e /\ e_id e = c }.

(** *** Invariants of the trace *)

(** Once the wait of the running call has resolved, the last depth it read
    is zero. *)
Definition unlocked_ok (s : state) (tr : list event) : Prop :=
  forall e, q_running (executeFn s) = Some e -> run_phase s = Unlocked ->
    last_check (e_id e) tr = Some 0.

(** A call whose wait is over: it is neither waiting nor still to start. *)
Definition quiet (c : nat) (s : state) : Prop :=
  (c < next_call s)%nat /\
  Forall (fun e => e_id e <> c) (q_pending (executeFn s)) /\
  (forall e, q_running (executeFn s) = Some e -> e_id e = c -> run_phase s <> Waiting).

(** While the body of the running call is awaited, the trace holds its
    invocation. *)
Definition inbody_ok (s : state) (tr : list event) : Prop :=
  forall e, q_running (executeFn s) = Some e -> run_phase s = InBody ->
    EInvoke (e_id e) (e_args e) ∈ tr.

(** The facts about the running call that the barrier argument uses. *)
Definition running_facts (s : state) (tr : list event) : Prop :=
  forall e, q_running (executeFn s) = Some e ->
    (run_phase s = InBody ->
       EInvoke (e_id e) (e_args e) ∈ tr /\ first (e_args e) <> NEVER_VALUE) /\
    (run_phase s = Unlocked -> last_check (e_id e) tr = Some 0) /\
    (EBarrier (e_id e) ∈ tr -> e_args e = [NEVER_VALUE]).

(** *** The handlers of the waits *)

(** The handlers of [waitForUnlock] that exist: scheduled by a broadcast
    or subscribed to the subject. *)
Definition handlers (s : state) : list nat :=
  notified s ++ bs_once (lockSubject s).

(** The handlers there ought to be: the one of the running call while it
    waits, and no other. *)
Definition expected_handlers (s : state) : list nat :=
  match q_running (executeFn s), run_phase s with
  | Some e, Waiting => [e_id e]
  | _, _ => []
  end.

(** The running call, while it waits, has its handler scheduled or
    subscribed, and a handler is subscribed only while the subject holds a
    depth other than zero. *)
Definition handlers_ok (s : state) : Prop :=
  (forall e, q_running (executeFn s) = Some e -> run_phase s = Waiting ->
     e_id e ∈ handlers s) /\
  (bs_once (lockSubject s) <> [] -> bs_data (lockSubject s) <> 0).

(** The lock is held, depth above zero, in [s] and in every state the
    inputs lead through. *)
Fixpoint held (s : state) (inputs : list input) : Prop :=
  0 < lockCount s /\
  match inputs with
  | [] => True
  | i :: rest =>
      match step s i with
      | Some (s1, _) => held s1 rest
      | None => False
      end
  end.

(** A turn of the scheduler, as opposed to a call of the interface. *)
Definition scheduler_turn (i : input) : Prop :=
  i = Deliver \/ i = Resume \/ i = Settle.

(** The settlement of a promise agrees with the submission the trace
    records: the cancellation marker, or the result of the executor for
    the arguments of the call, after the body ran if it has one. *)
Definition settle_ok (tr : list event) (ev : event) : Prop :=
  match ev with
  | ESettle c r =>
      r = Fulfilled CANCELED_SYMBOL \/
      exists a, args_of c tr = Some a /\ r = result_of (mkEntry c a) /\
                (first a <> NEVER_VALUE -> EInvoke c a ∈ tr)
  | _ => True
  end.

(** *** The promise of [endLock] *)

(** The settlement of the promise of call [c], if the trace holds one. *)
Fixpoint settled (c : nat) (tr : list event) : option outcome :=
  match tr with
  | [] => None
  | ESettle c' r :: rest => if decide (c' = c) then Some r else settled c rest
  | _ :: rest => settled c rest
  end.

(** [wrappedFn.endLock] after its suspension (lines 116-117): the async
    function awaits the promise of its sentinel call and ends without a
    [return].  When the awaited promise is fulfilled, whatever the value,
    the promise of [endLock] is fulfilled with undefined; when it is
    rejected, the [await] throws and the promise of [endLock] is rejected
    with the same reason. *)
Definition endLock_returns (r : outcome) : outcome :=
  match r with
  | Fulfilled _ => Fulfilled VUndefined
  | Rejected err => Rejected err
  end.

(** The promise the call of [endLock] that submitted sentinel call [c]
    has returned: pending ([None]) as long as the promise of [c] is, and
    settled as [endLock_returns] says once that promise has settled. *)
Definition endLock_promise (c : nat) (tr : list event) : option outcome :=
  if decide (EBarrier c ∈ tr) then endLock_returns <$> settled c tr else None.

End Lock.
End Lock.

(** ** States and traces of the scenarios *)

(** The lock is held and call 0 waits. *)
Definition held_waiting : Lock.state :=
  Lock.mkState 1 (Lock.mkSubject 0 1 [0%nat])
    (mkQueue (Some (mkEntry 0 [VNum 42])) false []) Lock.Waiting [] 1.

(** The lock was released while call 0 waited: its handler is scheduled
    and the sentinel call of [endLock] is queued behind it. *)
Definition released_waiting : Lock.state :=
  Lock.mkState 0 (Lock.mkSubject 0 0 [])
    (mkQueue (Some (mkEntry 0 [VNum 42])) false [mkEntry 1 [NEVER_VALUE]])
    Lock.Waiting [0%nat] 2.

(** The lock is held, call 0 waits and call 1 is queued behind it. *)
Definition held_queued : Lock.state :=
  Lock.mkState 1 (Lock.mkSubject 0 1 [0%nat])
    (mkQueue (Some (mkEntry 0 [VNum 42])) false [mkEntry 1 [VNum 43]])
    Lock.Waiting [] 2.

(** The lock is still held, call 0 waits, and the sentinel call of an
    [endLock] and call 2 are queued behind it. *)
Definition held_behind : Lock.state :=
  Lock.mkState 1 (Lock.mkSubject 0 1 [0%nat])
    (mkQueue (Some (mkEntry 0 [VNum 42])) false
       [mkEntry 1 [NEVER_VALUE]; mkEntry 2 [VNum 43]])
    Lock.Waiting [] 3.

(** The lock was released with call 0 waiting and call 1 queued. *)
Definition released_queued : Lock.state :=
  Lock.mkState 0 (Lock.mkSubject 0 0 [])
    (mkQueue (Some (mkEntry 0 [VNum 42])) false
       [mkEntry 1 [VNum 43]; mkEntry 2 [NEVER_VALUE]])
    Lock.Waiting [0%nat] 3.

(** The trace of the scenario of the specification, run to its end. *)
Definition scenario_trace : list event :=
  [ECall 0 [VNum 42]; ECheck 0 1; ESubscribe 0 0; EBarrier 1; ECheck 0 0;
   EInvoke 0 [VNum 42]; ESettle 0 (Fulfilled (VNum 42)); ECheck 1 0;
   ESkip 1; ESettle 1 (Fulfilled VNull)].

(** The state at its end: the lock free, the queue idle. *)
Definition scenario_end : Lock.state :=
  Lock.mkState 0 (Lock.mkSubject 0 0 []) (mkQueue None false []) Lock.Unlocked [] 2.

(** * Facts

    ** Lists of entries and events *)

#[local] Set Warnings "-clear-no-such-hyp".

Lemma ascending_snoc (l : list entry) (e : entry) :
  ascending l -> Forall (fun a => (e_id a < e_id e)%nat) l -> ascending (l ++ [e]).
Proof.
  unfold ascending. induction l as [|a l IH]; simpl; intros Hs Hb.
  - repeat constructor.
  - inversion Hs; subst. inversion Hb; subst. constructor; [by apply IH|].
    apply Forall_app. split; [done|]. by repeat constructor.
Qed.

Lemma ascending_tail (a : entry) (l : list entry) : ascending (a :: l) -> ascending l.
Proof. unfold ascending. by inversion 1. Qed.

Lemma ascending_head (a : entry) (l : list entry) :
  ascending (a :: l) -> Forall (fun b => (e_id a < e_id b)%nat) l.
Proof. unfold ascending. by inversion 1. Qed.

Lemma Forall_bound_S {A} (f : A -> nat) (l : list A) (n : nat) :
  Forall (fun x => (f x < n)%nat) l -> Forall (fun x => (f x < S n)%nat) l.
Proof. intros H. eapply Forall_impl; [exact H|]. intros; simpl in *; lia. Qed.

Lemma ascending_nil : ascending [].
Proof. constructor. Qed.

Lemma ascending_one (e : entry) : ascending [e].
Proof. by repeat constructor. Qed.

Lemma canceled_bound (l : list entry) (n : nat) :
  Forall (fun e => (e_id e < n)%nat) l ->
  Forall (fun ev => (ev_call ev < n)%nat) (map canceled l).
Proof. intros H. apply Forall_map. eapply Forall_impl; [exact H|]. by intros. Qed.

Lemma ascending_cons_snoc (a : entry) (l : list entry) (e : entry) :
  ascending (a :: l) -> (e_id a < e_id e)%nat ->
  Forall (fun b => (e_id b < e_id e)%nat) l -> ascending (a :: l ++ [e]).
Proof. intros Hs Ha Hl. apply (ascending_snoc (a :: l)); [done|]. by constructor. Qed.

Lemma elem_of_canceled (ev : event) (l : list entry) :
  ev ∈ map canceled l -> exists e, e ∈ l /\ ev = canceled e.
Proof.
  intros H. apply list_elem_of_In, in_map_iff in H as (e & <- & He).
  exists e. split; [by apply list_elem_of_In|done].
Qed.

(** Take a membership in the events of a step apart. *)
Ltac split_events H :=
  rewrite ?elem_of_app, ?elem_of_cons, ?elem_of_nil in H;
  repeat match type of H with
  | _ \/ _ => destruct H as [H|H]
  | False => destruct H
  | _ ∈ map canceled _ => apply elem_of_canceled in H as (?&?&?)
  end; simplify_eq/=.

Ltac split_Forall :=
  repeat first [ rewrite Forall_cons in * | rewrite Forall_app in *
               | rewrite Forall_nil in * ].

Ltac destruct_running :=
  repeat match goal with
  | |- context [match ?r with Some _ => _ | None => _ end] => destruct r
  | H : context [match ?r with Some _ => _ | None => _ end] |- _ => destruct r
  end.


(** ** The serialized queue *)

Module QueuedFacts.
Import Queued.
Section Facts.

Variable promise : list value -> outcome.

Abbreviation step := (Queued.step promise).
Abbreviation run := (Queued.run promise).
Abbreviation reach := (Queued.reach promise).

(** Every way a step of the queue can go, with the state taken apart. *)
Ltac queue_cases H :=
  match type of H with
  | step ?s ?i = Some _ =>
      destruct s as [[r dis pend] nx];
      tryif is_var i then destruct i else idtac;
      unfold step, start, q_submit, q_finish, q_clear, q_cancel, q_deliver in *;
      simpl in H;
      repeat (first [ progress simplify_eq/= | case_match ])
  end.

Lemma queue_reach_run (s : state) (tr : list event) (inputs : list input) s' evs :
  reach s tr -> run s inputs = Some (s', evs) -> reach s' (tr ++ evs).
Proof.
  revert s tr s' evs. induction inputs as [|i inputs IH]; intros s tr s' evs Hr Hrun;
    simpl in Hrun.
  - simplify_eq. by rewrite app_nil_r.
  - destruct (step s i) as [[s1 e1]|] eqn:Hs; [|done].
    destruct (run s1 inputs) as [[s2 e2]|] eqn:Hrest; [|done]. simplify_eq.
    rewrite app_assoc. eapply IH; [|done]. by econstructor.
Qed.

Lemma queue_run_reach (inputs : list input) s tr :
  run init inputs = Some (s, tr) -> reach s tr.
Proof. intros H. apply (queue_reach_run init [] inputs s tr); [constructor|done]. Qed.

Lemma fresh_untouched (n : nat) (tr : list event) :
  Forall (fun ev => (ev_call ev < n)%nat) tr -> Forall (fun ev => ~ touches n ev) tr.
Proof.
  intros H. eapply Forall_impl; [exact H|]. intros [] Hlt; simpl in *; lia.
Qed.

Lemma untouched_canceled (c : nat) (l : list entry) :
  Forall (fun e => e_id e <> c) l -> Forall (fun ev => ~ touches c ev) (map canceled l).
Proof.
  intros H. apply Forall_map. eapply Forall_impl; [exact H|]. by intros.
Qed.

(** The events of a step touch pending entries only by starting the first
    of them. *)
Lemma untouched_more (l : list entry) (tr evs : list event) :
  Forall (fun p => Forall (fun ev => ~ touches (e_id p) ev) tr) l ->
  Forall (fun p => Forall (fun ev => ~ touches (e_id p) ev) evs) l ->
  Forall (fun p => Forall (fun ev => ~ touches (e_id p) ev) (tr ++ evs)) l.
Proof.
  rewrite !Forall_forall. intros H1 H2 p Hp. apply Forall_app. split; auto.
Qed.

Lemma untouched_each (l : list entry) (tr evs : list event) :
  Forall (fun p => Forall (fun ev => ~ touches (e_id p) ev) tr) l ->
  Forall (fun ev => forall c, touches c ev -> Forall (fun p => e_id p <> c) l) evs ->
  Forall (fun p => Forall (fun ev => ~ touches (e_id p) ev) (tr ++ evs)) l.
Proof.
  intros H1 H2. apply untouched_more; [done|].
  rewrite !Forall_forall in *. intros p Hp. rewrite Forall_forall. intros ev Hev Ht.
  specialize (H2 ev Hev _ Ht). rewrite Forall_forall in H2. by apply (H2 p).
Qed.

Lemma ascending_after (a : entry) (l : list entry) :
  ascending (a :: l) -> Forall (fun p => e_id p <> e_id a) l.
Proof.
  intros H. eapply Forall_impl; [by apply ascending_head|]. intros; simpl in *; lia.
Qed.

Lemma queue_wf_init : wf init [].
Proof. split; simpl; try done; by constructor. Qed.

Lemma queue_wf_step s tr i s' evs :
  wf s tr -> step s i = Some (s', evs) -> wf s' (tr ++ evs).
Proof.
  intros [H3 H4 H5 H6 Hp Hr] H. queue_cases H.
  all: unfold q_entries in *; simpl in *.
  all: try (specialize (H6 eq_refl); simplify_eq).
  all: split; unfold q_entries in *; simpl in *; rewrite ?app_nil_r; try done.
  all: try (intros e' ?; simplify_eq; rewrite ?elem_of_app, ?elem_of_cons; by eauto).
  all: destruct_running.
  all: try (split_Forall; simpl;
            intuition (eauto using Forall_bound_S, ascending_cons_snoc, ascending_tail,
              ascending_nil, ascending_one, canceled_bound); fail).
  - apply Forall_app. split.
    + apply untouched_each; [done|]. repeat constructor; by intros c [].
    + repeat constructor. apply Forall_app. split; [by apply fresh_untouched|].
      repeat constructor. by intros [].
  - apply untouched_each; [by inversion Hp|]. constructor; [|constructor].
    intros c <-. eauto using ascending_after, ascending_tail.
  - apply untouched_each; [by inversion Hp|].
    pose proof (ascending_after _ _ H4) as Ha. inversion Ha; subst.
    constructor; [|constructor; [|constructor]]; intros c <-; [done|].
    eauto using ascending_after, ascending_tail.
Qed.

Lemma queue_reach_wf s tr : reach s tr -> wf s tr.
Proof. induction 1; eauto using queue_wf_init, queue_wf_step. Qed.

Lemma gone_step c s tr i s' evs :
  wf s tr -> gone c s -> step s i = Some (s', evs) ->
  gone c s' /\ Forall (fun ev => ~ touches c ev) evs.
Proof.
  intros [H3 H4 H5 H6 Hp Hr] [Hg1 Hg2] H. unfold gone. queue_cases H.
  all: unfold q_entries in *; simpl in *.
  all: try (specialize (H6 eq_refl); simplify_eq).
  all: destruct_running; split_Forall; simpl in *.
  all: split_and?; try done; try lia; try (intros ?; simpl in *; lia).
  all: try (by destruct_and?).
  all: try (apply untouched_canceled; by destruct_and?).
  all: try (intros <-; by destruct_and?).
Qed.

Lemma gone_run c post s tr s' evs :
  reach s tr -> gone c s -> run s post = Some (s', evs) ->
  Forall (fun ev => ~ touches c ev) evs.
Proof.
  revert s tr s' evs. induction post as [|i post IH]; intros s tr s' evs Hr Hg Hrun;
    simpl in Hrun.
  - simplify_eq. constructor.
  - destruct (step s i) as [[s1 e1]|] eqn:Hs; [|done].
    destruct (run s1 post) as [[s2 e2]|] eqn:Hrest; [|done]. simplify_eq.
    destruct (gone_step _ _ _ _ _ _ (queue_reach_wf _ _ Hr) Hg Hs) as [Hg1 He1].
    apply Forall_app. split; [done|]. eapply IH; [|done|done]. by econstructor.
Qed.

(** Calls and clears leave the running call alone. *)
Lemma running_stays post s s' evs e :
  Forall (fun i => i <> Cancel /\ i <> Settle) post ->
  q_running (queue_of s) = Some e -> q_discard (queue_of s) = false ->
  run s post = Some (s', evs) ->
  q_running (queue_of s') = Some e /\ q_discard (queue_of s') = false.
Proof.
  revert s s' evs. induction post as [|i post IH]; intros s s' evs Hall He Hd Hrun;
    simpl in Hrun.
  - by simplify_eq.
  - destruct (step s i) as [[s1 e1]|] eqn:Hs; [|done].
    destruct (run s1 post) as [[s2 e2]|] eqn:Hrest; [|done]. simplify_eq.
    inversion Hall as [|?? [Hi1 Hi2] Hall']; subst.
    eapply IH; [done| | |done]; queue_cases Hs; by simplify_eq/=.
Qed.

(** C7: [clear] on a serialized queue drops every call that has not
    started: each pending call is answered with the cancellation marker
    and with nothing else, and its body is invoked neither before nor ever
    after; the call in flight, whose body has been invoked, stays the
    running call, and when its promise settles its caller gets the result
    of the wrapped function. *)
Theorem clear_cancels_pending (pre : list input) (s : state) (tr : list event)
    (post : list input) (s2 : state) (tr2 : list event) :
  run init pre = Some (s, tr) ->
  run s (Clear :: post) = Some (s2, tr2) ->
  step s Clear =
    Some (mkState (mkQueue (q_running (queue_of s)) (q_discard (queue_of s)) [])
            (next_call s),
          map canceled (q_pending (queue_of s))) /\
  (forall p, p ∈ q_pending (queue_of s) ->
     ESettle (e_id p) (Fulfilled CANCELED_SYMBOL) ∈ tr2 /\
     (forall a, EInvoke (e_id p) a ∉ tr ++ tr2) /\
     (forall res, ESettle (e_id p) res ∈ tr ++ tr2 -> res = Fulfilled CANCELED_SYMBOL)) /\
  (forall e, q_running (queue_of s) = Some e -> q_discard (queue_of s) = false ->
     Forall (fun i => i <> Cancel /\ i <> Settle) post ->
     EInvoke (e_id e) (e_args e) ∈ tr /\
     exists s3 evs,
       step s2 Settle = Some (s3, ESettle (e_id e) (promise (e_args e)) :: evs)).
Proof.
  intros Hpre Hrun. apply queue_run_reach in Hpre.
  pose proof (queue_reach_wf _ _ Hpre) as Hwf.
  simpl in Hrun.
  destruct (run _ post) as [[s3 e3]|] eqn:Hpost; [|done]. injection Hrun as <- <-.
  set (s1 := mkState (mkQueue (q_running (queue_of s)) (q_discard (queue_of s)) [])
                     (next_call s)) in *.
  assert (Hs1 : step s Clear = Some (s1, map canceled (q_pending (queue_of s)))) by done.
  assert (Hr1 : reach s1 (tr ++ map canceled (q_pending (queue_of s)))) by (by econstructor).
  split_and!; [done| |].
  - intros p Hp.
    assert (Hgone : gone (e_id p) s1).
    { destruct Hwf as [H3 H4 _ _ _ _]. unfold gone, s1, q_entries in *. simpl.
      rewrite Forall_forall in H3. destruct (q_running (queue_of s)) as [e|] eqn:He.
      - split; [apply H3; by right|]. constructor; [|constructor].
        pose proof (ascending_after _ _ H4) as Ha. rewrite Forall_forall in Ha.
        intros Heq. by apply (Ha p Hp).
      - split; [by apply H3|constructor]. }
    pose proof (gone_run _ _ _ _ _ _ Hr1 Hgone Hpost) as Hafter.
    pose proof (wf_pending _ _ Hwf) as Hbefore.
    rewrite Forall_forall in Hbefore. specialize (Hbefore p Hp).
    rewrite Forall_forall in Hafter, Hbefore.
    split_and!.
    + apply elem_of_app. left. apply list_elem_of_In, in_map_iff.
      exists p. split; [done|by apply list_elem_of_In].
    + intros a Hin. rewrite !elem_of_app in Hin. destruct Hin as [Hin|[Hin|Hin]].
      * by apply (Hbefore _ Hin).
      * by apply elem_of_canceled in Hin as (? & ? & ?).
      * by apply (Hafter _ Hin).
    + intros res Hin. rewrite !elem_of_app in Hin. destruct Hin as [Hin|[Hin|Hin]].
      * by destruct (Hbefore _ Hin).
      * apply elem_of_canceled in Hin as (? & ? & Heq). unfold canceled in Heq.
        by simplify_eq.
      * by destruct (Hafter _ Hin).
  - intros e He Hd Hall. split; [by apply (wf_running _ _ Hwf)|].
    destruct (running_stays post s1 s3 e3 e Hall He Hd Hpost) as [He3 Hd3].
    simpl. rewrite He3. unfold q_deliver. rewrite Hd3. simpl. by eauto.
Qed.

End Facts.

(** C7, the scenario of the specification: one call in flight, three
    pending; [clear] answers the three with the cancellation marker, their
    bodies are never invoked, and the call in flight completes with the
    result of the function. *)
Lemma clear_cancels_pending_witness :
  exists s tr s2 tr2,
    Queued.run echo init [Call [VNum 1]; Call [VNum 2]; Call [VNum 3]; Call [VNum 4]]
      = Some (s, tr) /\
    Queued.run echo s [Clear] = Some (s2, tr2) /\
    tr2 = [ESettle 1 (Fulfilled CANCELED_SYMBOL); ESettle 2 (Fulfilled CANCELED_SYMBOL);
           ESettle 3 (Fulfilled CANCELED_SYMBOL)] /\
    (forall c, (1 <= c <= 3)%nat -> forall a, EInvoke c a ∉ tr ++ tr2) /\
    exists s3 evs,
      Queued.step echo s2 Settle = Some (s3, ESettle 0 (Fulfilled (VNum 1)) :: evs).
Proof.
  eexists _, _, _, _. split; [vm_compute; reflexivity|]. split; [vm_compute; reflexivity|].
  split; [reflexivity|].
  destruct (clear_cancels_pending echo
    [Call [VNum 1]; Call [VNum 2]; Call [VNum 3]; Call [VNum 4]] _ _ [] _ _
    eq_refl eq_refl) as (_ & Hpend & Hrun).
  split.
  - intros c Hc a.
    assert (Hin : mkEntry c [VNum (Z.of_nat (S c))] ∈
      [mkEntry 1 [VNum 2]; mkEntry 2 [VNum 3]; mkEntry 3 [VNum 4]]).
    { destruct c as [|[|[|[|c]]]]; try lia; repeat (first [ by left | right ]). }
    destruct (Hpend _ Hin) as (_ & Hno & _). exact (Hno a).
  - destruct (Hrun (mkEntry 0 [VNum 1]) eq_refl eq_refl) as (_ & Hsettle).
    + constructor.
    + exact Hsettle.
Defined.

End QueuedFacts.

(** ** The lock *)

Module LockFacts.
Import Lock.
Section Facts.

Variable promise : list value -> outcome.

Abbreviation step := (Lock.step promise).
Abbreviation run := (Lock.run promise).
Abbreviation reach := (Lock.reach promise).
Abbreviation result_of := (Lock.result_of promise).
Abbreviation done_by := (Lock.done_by promise).

(** *** Proof automation *)

Ltac unfold_lock :=
  unfold step, wrappedFn, endLock, beginLock, clear, cancel, submit, resume,
    finish, start, waitForUnlock, handler, resolve, broadcast, bs_next,
    bs_subscribe_once, new_subject, q_submit, q_finish, q_clear, q_cancel,
    q_deliver, set_lockCount, set_lockSubject, set_executeFn,
    set_phase, set_notified, set_next_call in *.

(** Every way a step can go, with the state taken apart. *)
Ltac step_cases H :=
  match type of H with
  | step ?s ?i = Some _ =>
      destruct s as [n [sid d once] [r dis pend] ph nt nx];
      tryif is_var i then destruct i else idtac;
      unfold_lock; simpl in H;
      repeat (first [ progress simplify_eq/= | case_match ])
  end.

Lemma handlers_head (Q : nat -> Prop) (x : nat) (l o : list nat) :
  (forall c, c ∈ (x :: l) ++ o -> Q c) ->
  (length ((x :: l) ++ o) <= 1)%nat -> Q x /\ l = [] /\ o = [].
Proof.
  intros HQ Hlen. split; [apply HQ; by left|].
  destruct l, o; simpl in Hlen; try rewrite length_app in Hlen; simpl in Hlen;
    (done || lia).
Qed.

Lemma handlers_none (Q : nat -> Prop) (l o : list nat) :
  (forall c, c ∈ l ++ o -> Q c) -> (forall c, ~ Q c) -> l = [] /\ o = [].
Proof.
  intros HQ Hn. destruct l as [|x l]; [destruct o as [|x o]; [done|]|].
  - exfalso. apply (Hn x), HQ. by left.
  - exfalso. apply (Hn x), HQ. by left.
Qed.

(** A scheduled or subscribed handler belongs to the running call while
    it waits, and there is at most one. *)
Ltac use_handlers H7 H8 :=
  first
    [ let H' := fresh "Hh" in
      pose proof (handlers_head _ _ _ _ H7 H8) as H';
      destruct H' as [[? [? [? ?]]] [? ?]]; simplify_eq/=
    | let H' := fresh "Hh" in
      assert (H' := handlers_none _ _ _ H7);
      destruct H' as [? ?];
      [ by (intros ? (?&?&?&?); simplify_eq/=) | simplify_eq/= ]
    | idtac ].

Ltac split_elem Hc :=
  rewrite ?elem_of_app, ?elem_of_cons, ?elem_of_nil in Hc.

Ltac solve_handlers H7 :=
  let c := fresh "c" in
  let Hc := fresh "Hc" in
  intros c Hc; split_elem Hc; destruct_or?;
  first
    [ by (simplify_eq/=; eauto)
    | by (edestruct (H7 c) as (?&?&?&?);
          [ rewrite ?elem_of_app, ?elem_of_cons; tauto
          | simplify_eq/=; eauto ]) ].

Lemma wf_init : wf init [].
Proof.
  split; simpl; try done; try lia; try by constructor.
  intros c Hc. by apply elem_of_nil in Hc.
Qed.

Lemma wf_step s tr i s' evs :
  wf s tr -> step s i = Some (s', evs) -> wf s' (tr ++ evs).
Proof.
  intros [H1 H2 H3 H4 H5 H6 H8 H7] H. step_cases H.
  all: unfold q_entries in *; simpl in *.
  all: try (specialize (H6 eq_refl); simplify_eq).
  all: use_handlers H7 H8.
  all: split; unfold q_entries in *; simpl in *; rewrite ?app_nil_r.
  all: try lia; try done.
  all: try (solve_handlers H7).
  all: destruct_running; split_Forall.
  all: try (simpl; intuition (eauto using Forall_bound_S, ascending_cons_snoc, ascending_tail,
              ascending_nil, ascending_one, canceled_bound); fail).
Qed.

Lemma run_app (s : state) (a b : list input) :
  run s (a ++ b) =
  match run s a with
  | Some (s1, e1) =>
      match run s1 b with
      | Some (s2, e2) => Some (s2, e1 ++ e2)
      | None => None
      end
  | None => None
  end.
Proof.
  revert s. induction a as [|i a IH]; intros s; simpl.
  - by destruct (run s b) as [[??]|].
  - destruct (step s i) as [[s1 evs]|]; [|done]. rewrite IH.
    destruct (run s1 a) as [[s2 e2]|]; [|done].
    destruct (run s2 b) as [[s3 e3]|]; [|done]. by rewrite app_assoc.
Qed.

Lemma reach_run (s : state) (tr : list event) (inputs : list input) s' evs :
  reach s tr -> run s inputs = Some (s', evs) -> reach s' (tr ++ evs).
Proof.
  revert s tr s' evs. induction inputs as [|i inputs IH]; intros s tr s' evs Hr Hrun; simpl in Hrun.
  - simplify_eq. by rewrite app_nil_r.
  - destruct (step s i) as [[s1 e1]|] eqn:Hs; [|done].
    destruct (run s1 inputs) as [[s2 e2]|] eqn:Hrest; [|done]. simplify_eq.
    rewrite app_assoc. eapply IH; [|done]. by econstructor.
Qed.

Lemma run_reach (inputs : list input) s tr :
  run init inputs = Some (s, tr) -> reach s tr.
Proof. intros H. apply (reach_run init [] inputs s tr); [constructor|done]. Qed.

Lemma reach_wf s tr : reach s tr -> wf s tr.
Proof. induction 1; eauto using wf_init, wf_step. Qed.

(** *** The depth counter *)

Lemma step_depth s i s' evs :
  0 <= lockCount s -> step s i = Some (s', evs) ->
  lockCount s' = spec_depth_step (lockCount s) i.
Proof.
  intros Hd H. step_cases H; simpl in *; try done; case_decide; lia.
Qed.

Lemma spec_depth_step_nonneg d i : 0 <= d -> 0 <= spec_depth_step d i.
Proof. intros Hd. destruct i; simpl; try case_decide; lia. Qed.

Lemma run_depth inputs s s' tr :
  0 <= lockCount s -> run s inputs = Some (s', tr) ->
  lockCount s' = spec_depth (lockCount s) inputs.
Proof.
  revert s tr. induction inputs as [|i inputs IH]; intros s tr Hd Hrun; simpl in *.
  - by simplify_eq.
  - destruct (step s i) as [[s1 e1]|] eqn:Hs; [|done].
    destruct (run s1 inputs) as [[s2 e2]|] eqn:Hrest; [|done]. simplify_eq.
    pose proof (step_depth _ _ _ _ Hd Hs) as Hs1. rewrite <- Hs1.
    eapply IH; [|done]. rewrite Hs1. by apply spec_depth_step_nonneg.
Qed.

Lemma spec_depth_nonneg inputs d : 0 <= d -> 0 <= spec_depth d inputs.
Proof.
  revert d. induction inputs as [|i inputs IH]; intros d Hd; simpl; [done|].
  by apply IH, spec_depth_step_nonneg.
Qed.

Lemma spec_depth_app d a b : spec_depth d (a ++ b) = spec_depth (spec_depth d a) b.
Proof. apply fold_left_app. Qed.

Lemma spec_depth_begin (N : nat) d : spec_depth d (repeat BeginLock N) = d + Z.of_nat N.
Proof.
  revert d. induction N as [|N IH]; intros d; simpl; [lia|].
  unfold spec_depth in *. rewrite IH. lia.
Qed.

Lemma spec_depth_end (k : nat) d :
  0 <= d -> spec_depth d (repeat EndLock k) = Z.max (d - Z.of_nat k) 0.
Proof.
  revert d. induction k as [|k IH]; intros d Hd; simpl; [lia|].
  unfold spec_depth in *. case_decide.
  - rewrite IH; lia.
  - rewrite IH; lia.
Qed.

Lemma run_lock_calls_total inputs s :
  Forall (fun i => i = BeginLock \/ i = EndLock) inputs ->
  exists s' tr, run s inputs = Some (s', tr).
Proof.
  revert s. induction inputs as [|i inputs IH]; intros s Hall; simpl; [by eauto|].
  inversion Hall as [|?? [->| ->] Hrest]; subst; simpl.
  - destruct (IH (beginLock s) Hrest) as (s' & tr & ->). by eauto.
  - destruct (endLock s) as [s1 e1] eqn:He.
    destruct (IH s1 Hrest) as (s' & tr & ->). by eauto.
Qed.

(** C3: the depth counter is reentrant and clamped at zero.  From a state
    with a non-negative depth, [beginLock] adds exactly one; [endLock] takes
    exactly one away, except at depth zero, where the counter stays zero;
    along every run the counter is the one the specification describes and
    never negative; and [N] calls of [beginLock] followed by [k] calls of
    [endLock] always run through and leave the depth at
    [max (depth + N - k) 0], so that from depth zero it is back at zero
    exactly when [k] is at least [N]. *)
Theorem depth_reentrant_clamped (s : state) (inputs : list input)
    (s' : state) (tr : list event) (N k : nat) :
  0 <= lockCount s ->
  run s inputs = Some (s', tr) ->
  lockCount (beginLock s) = lockCount s + 1 /\
  lockCount (endLock s).1 = (if decide (lockCount s = 0) then 0 else lockCount s - 1) /\
  lockCount s' = spec_depth (lockCount s) inputs /\
  0 <= lockCount s' /\
  exists s2 tr2,
    run s (repeat BeginLock N ++ repeat EndLock k) = Some (s2, tr2) /\
    lockCount s2 = Z.max (lockCount s + Z.of_nat N - Z.of_nat k) 0 /\
    (lockCount s = 0 -> (lockCount s2 = 0 <-> (N <= k)%nat)).
Proof.
  intros Hd Hrun. split; [|split; [|split; [|split]]].
  - apply (step_depth s BeginLock _ []); done.
  - destruct (endLock s) as [s1 e1] eqn:He.
    apply (step_depth s EndLock s1 e1 Hd). simpl. by rewrite He.
  - by eapply run_depth.
  - erewrite run_depth by done. by apply spec_depth_nonneg.
  - destruct (run_lock_calls_total (repeat BeginLock N ++ repeat EndLock k) s)
      as (s2 & tr2 & Hrun2).
    { apply Forall_app. split; apply Forall_forall; intros i Hi;
        apply list_elem_of_In, repeat_spec in Hi; auto. }
    exists s2, tr2. split; [done|].
    pose proof (run_depth _ _ _ _ Hd Hrun2) as Hs2.
    rewrite spec_depth_app, spec_depth_begin, spec_depth_end in Hs2 by lia.
    split; [done|]. intros H0. rewrite Hs2, H0. lia.
Qed.

(** *** Reset *)

Lemma clear_eq (s : state) :
  clear s =
  (mkState 0 (new_subject (S (bs_id (lockSubject s))) 0)
     (mkQueue (q_running (executeFn s)) (q_discard (executeFn s)) [])
     (run_phase s) (notified s ++ bs_once (lockSubject s)) (next_call s),
   map canceled (q_pending (executeFn s))).
Proof. reflexivity. Qed.

Lemma cancel_eq (s : state) :
  cancel s =
  (set_executeFn (q_cancel (executeFn (clear s).1)).1 (clear s).1,
   (clear s).2 ++ (q_cancel (executeFn (clear s).1)).2).
Proof.
  unfold cancel. rewrite clear_eq. simpl.
  by destruct (q_cancel _) as [q evs].
Qed.

(** C6: in any state, [clear] leaves the depth counter at 0, puts a fresh
    [BehaviorSubject] (a new identity, value 0, no listener) in place of the
    broadcast object after telling the listeners of the old one, and clears
    the queue: its pending entries are dropped, each answered with the
    cancellation marker, the running call stays; [cancel] is [clear]
    followed by the cancellation of the queue. *)
Theorem clear_cancel_reset (s : state) :
  lockCount (clear s).1 = 0 /\
  lockSubject (clear s).1 = new_subject (S (bs_id (lockSubject s))) 0 /\
  bs_id (lockSubject (clear s).1) <> bs_id (lockSubject s) /\
  notified (clear s).1 = notified s ++ bs_once (lockSubject s) /\
  (executeFn (clear s).1, (clear s).2) = q_clear (executeFn s) /\
  q_pending (executeFn (clear s).1) = [] /\
  q_running (executeFn (clear s).1) = q_running (executeFn s) /\
  (clear s).2 = map canceled (q_pending (executeFn s)) /\
  cancel s =
    (set_executeFn (q_cancel (executeFn (clear s).1)).1 (clear s).1,
     (clear s).2 ++ (q_cancel (executeFn (clear s).1)).2) /\
  lockCount (cancel s).1 = 0 /\
  lockSubject (cancel s).1 = lockSubject (clear s).1 /\
  q_pending (executeFn (cancel s).1) = [] /\
  (forall e, q_running (executeFn s) = Some e ->
     q_running (executeFn (cancel s).1) = Some e /\
     q_discard (executeFn (cancel s).1) = true).
Proof.
  rewrite cancel_eq, clear_eq. simpl.
  split_and!; try done; try lia.
  - unfold q_cancel. simpl. by destruct (q_running _), (q_discard _).
  - unfold q_cancel. simpl. intros e ->. by destruct (q_discard _).
Qed.

(** *** The unlock wait *)

Lemma last_check_app c tr evs :
  last_check c (tr ++ evs) =
  match last_check c evs with Some d => Some d | None => last_check c tr end.
Proof.
  induction tr as [|ev tr IH]; simpl.
  - by destruct (last_check c evs).
  - rewrite IH. by destruct (last_check c evs).
Qed.

Lemma last_check_canceled c l : last_check c (map canceled l) = None.
Proof. induction l as [|e l IH]; simpl; [done|]. by rewrite IH. Qed.

Ltac simpl_checks :=
  rewrite ?last_check_app; simpl; rewrite ?last_check_app, ?last_check_canceled; simpl;
  repeat case_decide; simplify_eq/=.

Lemma unlocked_ok_step s tr i s' evs :
  wf s tr -> unlocked_ok s tr -> step s i = Some (s', evs) -> unlocked_ok s' (tr ++ evs).
Proof.
  intros [H1 H2 H3 H4 H5 H6 H8 H7] Hu H. unfold unlocked_ok in *. step_cases H.
  all: unfold q_entries in *; simpl in *.
  all: try (specialize (H6 eq_refl); simplify_eq).
  all: use_handlers H7 H8.
  all: intros e' ? ?; simplify_eq/=.
  all: simpl_checks; try done; try lia.
  all: try (by eapply Hu).
  all: by f_equal.
Qed.

Lemma reach_unlocked_ok s tr : reach s tr -> unlocked_ok s tr.
Proof.
  induction 1 as [|s tr i s' evs Hr IH Hs].
  - by intros e ?.
  - eapply unlocked_ok_step; eauto using reach_wf.
Qed.

(** C2 (as amended): the real body of a call is invoked only by the
    continuation of its executor, and only after the wait of that call has
    read depth zero from the broadcast object as its last reading.  Every
    reading is the depth of that moment.  A reading of zero resolves the
    wait; any other reading subscribes the handler again, leaves the call
    waiting and runs no body; and every [beginLock] or [endLock] schedules a
    subscribed handler for a new reading.  The depth is not read again
    between the reading of zero and the body. *)
Theorem body_after_observed_unlock (pre : list input) (s : state) (tr : list event)
    (i : input) (s' : state) (evs : list event) (c : nat) :
  run init pre = Some (s, tr) ->
  step s i = Some (s', evs) ->
  (forall a, EInvoke c a ∈ evs ->
     i = Resume /\ run_phase s = Unlocked /\ last_check c tr = Some 0) /\
  (forall d, ECheck c d ∈ evs ->
     d = lockCount s' /\
     (d = 0 -> run_phase s' = Unlocked) /\
     (d <> 0 -> c ∈ bs_once (lockSubject s') /\ run_phase s' = Waiting /\
                forall a, EInvoke c a ∉ evs)) /\
  (i = BeginLock \/ i = EndLock -> c ∈ bs_once (lockSubject s) -> c ∈ notified s').
Proof.
  intros Hpre H. apply run_reach in Hpre.
  pose proof (reach_unlocked_ok _ _ Hpre) as Hu.
  destruct (reach_wf _ _ Hpre) as [H1 H2 H3 H4 H5 H6 H8 H7].
  unfold unlocked_ok in Hu. step_cases H.
  all: unfold q_entries in *; simpl in *.
  all: try (specialize (H6 eq_refl); simplify_eq).
  all: use_handlers H7 H8.
  all: split; [|split].
  all: try (intros a Ha; split_events Ha; by eauto).
  all: try (intros d' Hd'; split_events Hd'; repeat split; try done; try lia;
            try (by intros _; set_solver);
            try (intros; set_solver)).
  all: try (intros [?|?] Hin; simplify_eq/=; set_solver).
Qed.

Lemma quiet_step c s tr i s' evs :
  wf s tr -> quiet c s -> step s i = Some (s', evs) ->
  quiet c s' /\ (forall d, ECheck c d ∉ evs) /\ (forall sid, ESubscribe c sid ∉ evs).
Proof.
  intros [H1 H2 H3 H4 H5 H6 H8 H7] (Hq1 & Hq2 & Hq3) H. unfold quiet. step_cases H.
  all: unfold q_entries in *; simpl in *.
  all: try (specialize (H6 eq_refl); simplify_eq).
  all: use_handlers H7 H8.
  all: split_Forall.
  all: repeat split; try done; try lia.
  all: try (intros ? Hin; split_events Hin; try lia; by eauto).
  all: try (intros; simplify_eq/=; try lia; by eauto).
  all: try (by destruct_and?).
  all: intros ? Hin; split_events Hin; by (exfalso; eapply Hq3; eauto).
Qed.

Lemma quiet_run c post s tr s' evs :
  reach s tr -> quiet c s -> run s post = Some (s', evs) ->
  (forall d, ECheck c d ∉ evs) /\ (forall sid, ESubscribe c sid ∉ evs).
Proof.
  revert s tr s' evs. induction post as [|i post IH]; intros s tr s' evs Hr Hq Hrun; simpl in Hrun.
  - simplify_eq. split; intros ?; apply not_elem_of_nil.
  - destruct (step s i) as [[s1 e1]|] eqn:Hs; [|done].
    destruct (run s1 post) as [[s2 e2]|] eqn:Hrest; [|done]. simplify_eq.
    destruct (quiet_step _ _ _ _ _ _ (reach_wf _ _ Hr) Hq Hs) as (Hq1 & Hc1 & Hs1).
    destruct (IH s1 (tr ++ e1) s' e2) as [Hc2 Hs2]; [by econstructor|done|done|].
    split; intros x Hin; apply elem_of_app in Hin as [Hin|Hin]; naive_solver.
Qed.



(** *** Calls and their arguments *)

Lemma args_of_app c tr evs :
  args_of c (tr ++ evs) =
  match args_of c tr with Some a => Some a | None => args_of c evs end.
Proof.
  induction tr as [|ev tr IH]; simpl; [done|].
  destruct ev; simpl; try done; by case_decide.
Qed.

Lemma args_of_old c tr evs a :
  args_of c tr = Some a -> args_of c (tr ++ evs) = Some a.
Proof. intros H. by rewrite args_of_app, H. Qed.

Lemma args_of_fresh (n : nat) tr :
  Forall (fun ev => (ev_call ev < n)%nat) tr -> args_of n tr = None.
Proof.
  induction 1 as [|ev tr Hev _ IH]; simpl; [done|].
  destruct ev; simpl in *; try done; case_decide; (done || lia).
Qed.

Lemma args_of_new n tr evs :
  Forall (fun ev => (ev_call ev < n)%nat) tr ->
  args_of n (tr ++ evs) = args_of n evs.
Proof. intros H. by rewrite args_of_app, args_of_fresh. Qed.

Lemma args_of_origin c tr a :
  args_of c tr = Some a ->
  ECall c a ∈ tr \/ (EBarrier c ∈ tr /\ a = [NEVER_VALUE]).
Proof.
  induction tr as [|ev tr IH]; simpl; [done|].
  assert (Hrec : args_of c tr = Some a ->
    ECall c a ∈ ev :: tr \/ (EBarrier c ∈ ev :: tr /\ a = [NEVER_VALUE])).
  { intros Ha. destruct (IH Ha) as [?|[??]]; [left|right; split]; by try right. }
  destruct ev; try done.
  - case_decide as Hc; [|done]. intros Ha. simplify_eq. left. by left.
  - case_decide as Hc; [|done]. intros Ha. simplify_eq. right. split; [by left|done].
Qed.

Lemma ev_ok_mono tr evs ev : ev_ok tr ev -> ev_ok (tr ++ evs) ev.
Proof.
  destruct ev; simpl; try done; eauto using args_of_old.
  - intros [??]. eauto using args_of_old.
  - intros (a & ? & ?). eauto using args_of_old.
Qed.

Lemma ev_ok_canceled tr l : Forall (ev_ok tr) (map canceled l).
Proof. induction l; simpl; by constructor. Qed.

Lemma consistent_step s tr i s' evs :
  wf s tr -> consistent s tr -> step s i = Some (s', evs) -> consistent s' (tr ++ evs).
Proof.
  intros [H1 H2 H3 H4 H5 H6 H8 H7] [Hq Ht] H. unfold consistent.
  assert (Hmono : Forall (ev_ok (tr ++ evs)) tr).
  { eapply Forall_impl; [exact Ht|]. intros. by apply ev_ok_mono. }
  assert (Hold : forall l, Forall (fun e => args_of (e_id e) tr = Some (e_args e)) l ->
                 Forall (fun e => args_of (e_id e) (tr ++ evs) = Some (e_args e)) l).
  { intros l Hl. eapply Forall_impl; [exact Hl|]. intros. by apply args_of_old. }
  revert Hmono Hold. step_cases H; intros Hmono Hold.
  all: unfold q_entries in *; simpl in *.
  all: try (specialize (H6 eq_refl); simplify_eq).
  all: use_handlers H7 H8.
  all: destruct_running; split_Forall; simpl.
  all: rewrite ?args_of_new by done; simpl; rewrite ?decide_True by done.
  all: split_and?; try done; eauto using ev_ok_canceled, args_of_old.
  all: try (by destruct_and?; eauto using args_of_old).
  all: rewrite args_of_new by done; simpl; by rewrite decide_True.
Qed.

Lemma reach_consistent s tr : reach s tr -> consistent s tr.
Proof.
  induction 1 as [|s tr i s' evs Hr IH Hs].
  - split; constructor.
  - eapply consistent_step; eauto using reach_wf.
Qed.

Lemma barrier_args c s tr : reach s tr -> EBarrier c ∈ tr -> args_of c tr = Some [NEVER_VALUE].
Proof.
  intros Hr Hin. destruct (reach_consistent _ _ Hr) as [_ Ht].
  rewrite Forall_forall in Ht. exact (Ht _ Hin).
Qed.

Lemma call_args c a s tr : reach s tr -> ECall c a ∈ tr -> args_of c tr = Some a.
Proof.
  intros Hr Hin. destruct (reach_consistent _ _ Hr) as [_ Ht].
  rewrite Forall_forall in Ht. exact (Ht _ Hin).
Qed.

Lemma invoke_args c a s tr :
  reach s tr -> EInvoke c a ∈ tr -> args_of c tr = Some a /\ first a <> NEVER_VALUE.
Proof.
  intros Hr Hin. destruct (reach_consistent _ _ Hr) as [_ Ht].
  rewrite Forall_forall in Ht. exact (Ht _ Hin).
Qed.

Lemma skip_args c s tr :
  reach s tr -> ESkip c ∈ tr -> exists a, args_of c tr = Some a /\ first a = NEVER_VALUE.
Proof.
  intros Hr Hin. destruct (reach_consistent _ _ Hr) as [_ Ht].
  rewrite Forall_forall in Ht. exact (Ht _ Hin).
Qed.

Lemma running_args s tr e :
  reach s tr -> q_running (executeFn s) = Some e -> args_of (e_id e) tr = Some (e_args e).
Proof.
  intros Hr He. destruct (reach_consistent _ _ Hr) as [Hq _].
  unfold q_entries in Hq. rewrite He in Hq. by inversion Hq.
Qed.

Lemma submit_entries args s :
  q_entries (executeFn (submit args s).1) =
  q_entries (executeFn s) ++ [mkEntry (next_call s) args].
Proof.
  destruct s as [n [sid d once] [r dis pend] ph nt nx].
  unfold submit, start, waitForUnlock, handler, resolve, q_submit, q_entries,
    bs_subscribe_once, set_lockSubject, set_phase, set_next_call, set_executeFn; simpl.
  destruct r; [done|]. destruct pend; [|done]. simpl.
  case_decide; [|done]. simpl. by case_decide.
Qed.

Lemma step_call_event s i s' evs c a :
  step s i = Some (s', evs) -> ECall c a ∈ evs -> i = Call a.
Proof.
  intros H Hin. step_cases H; by split_events Hin.
Qed.

Lemma run_call_events inputs s s' tr c a :
  run s inputs = Some (s', tr) -> ECall c a ∈ tr -> Call a ∈ inputs.
Proof.
  revert s tr. induction inputs as [|i inputs IH]; intros s tr Hrun Hin; simpl in Hrun.
  - simplify_eq. by apply elem_of_nil in Hin.
  - destruct (step s i) as [[s1 e1]|] eqn:Hs; [|done].
    destruct (run s1 inputs) as [[s2 e2]|] eqn:Hrest; [|done]. simplify_eq.
    apply elem_of_app in Hin as [Hin|Hin].
    + apply (step_call_event _ _ _ _ _ _ Hs) in Hin as ->. by left.
    + right. by eapply IH.
Qed.

(** C5: [endLock] pushes exactly one entry, the sentinel call, through the
    queue of [executeFn], the queue every call of the wrapper goes through,
    and at its end like every call; the executor recognises the entry by
    comparing the first element of its argument list with [NEVER_VALUE];
    the continuation of a recognised entry returns null without calling
    the user's function; and whatever happens afterwards, the user's
    function is never invoked for the sentinel call. *)
Theorem endLock_sentinel_noop (pre : list input) (s : state) (tr : list event)
    (post : list input) (s2 : state) (tr2 : list event) :
  run init pre = Some (s, tr) ->
  run s (EndLock :: post) = Some (s2, tr2) ->
  q_entries (executeFn (endLock s).1) =
    q_entries (executeFn s) ++ [mkEntry (next_call s) [NEVER_VALUE]] /\
  (forall args, q_entries (executeFn (wrappedFn args s).1) =
    q_entries (executeFn s) ++ [mkEntry (next_call s) args]) /\
  first [NEVER_VALUE] = NEVER_VALUE /\
  (forall s3 e, first (e_args e) = NEVER_VALUE ->
     (resume e s3).2 = ESkip (e_id e) :: (Lock.finish e (Fulfilled VNull) s3).2 /\
     forall c a, EInvoke c a ∉ (resume e s3).2) /\
  EBarrier (next_call s) ∈ tr2 /\
  (forall a, EInvoke (next_call s) a ∉ tr ++ tr2).
Proof.
  intros Hpre Hrun. apply run_reach in Hpre.
  pose proof (reach_run _ _ _ _ _ Hpre Hrun) as Hr2.
  assert (Hbar : EBarrier (next_call s) ∈ tr2).
  { simpl in Hrun. unfold endLock in Hrun.
    destruct (submit _ _) as [s3 e3]. destruct (run s3 post) as [[??]|]; [|done].
    simplify_eq. by left. }
  split_and!; try done.
  - unfold endLock.
    pose proof (submit_entries [NEVER_VALUE]
      (broadcast (lockCount (set_lockCount (Z.max (lockCount s - 1) 0) s))
                 (set_lockCount (Z.max (lockCount s - 1) 0) s))) as Hs.
    destruct (submit _ _) as [s3 e3]. simpl in *. by rewrite Hs.
  - intros args. unfold wrappedFn. pose proof (submit_entries args s) as Hs.
    destruct (submit _ _) as [s3 e3]. by simpl in *.
  - intros s3 e He. unfold resume. rewrite decide_True by done.
    destruct (Lock.finish _ _ _) as [s4 e4] eqn:Hf. simpl. split; [done|].
    intros c a Hin. apply elem_of_cons in Hin as [?|Hin]; [done|].
    revert Hf Hin. clear. destruct s3 as [n [sid d once] [r dis pend] ph nt nx].
    unfold_lock; simpl. intros Hf Hin.
    repeat (first [ progress simplify_eq/= | case_match ]); by split_events Hin.
  - intros a Hin.
    assert (Hb : EBarrier (next_call s) ∈ tr ++ tr2) by (apply elem_of_app; by right).
    pose proof (barrier_args _ _ _ Hr2 Hb) as Ha.
    destruct (invoke_args _ _ _ _ Hr2 Hin) as [Ha' Hne]. by simplify_eq.
Qed.

(** C10: when every argument list handed to the wrapper is free of the
    private sentinel, the sentinel branch is taken only for the sentinel
    calls of [endLock] and never for a call of the wrapper: such a call has
    a first element different from the sentinel, its continuation always
    calls the user's function, and the user's function is never handed the
    sentinel. *)
Theorem sentinel_branch_private (inputs : list input) (s : state) (tr : list event) :
  run init inputs = Some (s, tr) ->
  (forall args, Call args ∈ inputs -> Forall (fun v => v <> NEVER_VALUE) args) ->
  (forall args, Forall (fun v => v <> NEVER_VALUE) args -> first args <> NEVER_VALUE) /\
  (forall c, ESkip c ∈ tr -> EBarrier c ∈ tr /\ forall a, ECall c a ∉ tr) /\
  (forall c a, ECall c a ∈ tr -> first a <> NEVER_VALUE /\ ESkip c ∉ tr) /\
  (forall e a, q_running (executeFn s) = Some e -> run_phase s = Unlocked ->
     ECall (e_id e) a ∈ tr ->
     step s Resume = Some (set_phase InBody s, [EInvoke (e_id e) a])) /\
  (forall c a, EInvoke c a ∈ tr -> Forall (fun v => v <> NEVER_VALUE) a).
Proof.
  intros Hrun Hext. pose proof (run_reach _ _ _ Hrun) as Hr.
  assert (Hfirst : forall args, Forall (fun v => v <> NEVER_VALUE) args ->
                                first args <> NEVER_VALUE).
  { intros [|v args] Hall; simpl; [done|]. by inversion Hall. }
  assert (Hcall : forall c a, ECall c a ∈ tr -> first a <> NEVER_VALUE).
  { intros c a Hin. apply Hfirst, Hext. by eapply run_call_events. }
  split_and!; try done.
  - intros c Hin. destruct (skip_args _ _ _ Hr Hin) as (a & Ha & Hfa).
    destruct (args_of_origin _ _ _ Ha) as [Hc|[Hb _]].
    + by apply Hcall in Hc.
    + split; [done|]. intros a' Hc. pose proof (call_args _ _ _ _ Hr Hc) as Ha'.
      simplify_eq. by apply Hcall in Hc.
  - intros c a Hin. split; [by eapply Hcall|]. intros Hs.
    destruct (skip_args _ _ _ Hr Hs) as (a' & Ha' & Hfa).
    pose proof (call_args _ _ _ _ Hr Hin) as Ha. simplify_eq. by apply Hcall in Hin.
  - intros e a He Hph Hin. simpl. rewrite He, Hph. unfold resume.
    pose proof (call_args _ _ _ _ Hr Hin) as Ha.
    pose proof (running_args _ _ _ Hr He) as Ha'. simplify_eq.
    rewrite decide_False; [done|]. by eapply Hcall.
  - intros c a Hin. destruct (invoke_args _ _ _ _ Hr Hin) as [Ha Hne].
    destruct (args_of_origin _ _ _ Ha) as [Hc|[_ ->]]; [|done].
    apply Hext. by eapply run_call_events.
Qed.

(** *** First in, first out *)

Lemma invoked_app tr evs : invoked (tr ++ evs) = invoked tr ++ invoked evs.
Proof. induction tr as [|ev tr IH]; simpl; [done|]. destruct ev; simpl; by rewrite ?IH. Qed.

Lemma submitted_app tr evs : submitted (tr ++ evs) = submitted tr ++ submitted evs.
Proof.
  induction tr as [|ev tr IH]; simpl; [done|].
  destruct ev; simpl; try case_decide; simpl; by rewrite ?IH.
Qed.

Lemma callers_app l k : callers (l ++ k) = callers l ++ callers k.
Proof.
  induction l as [|e l IH]; simpl; [done|]. case_decide; simpl; by rewrite IH.
Qed.

Lemma invoked_canceled l : invoked (map canceled l) = [].
Proof. induction l; simpl; done. Qed.

Lemma submitted_canceled l : submitted (map canceled l) = [].
Proof. induction l; simpl; done. Qed.

Lemma submitted_bound (n : nat) tr :
  Forall (fun ev => (ev_call ev < n)%nat) tr -> Forall (fun c => (c < n)%nat) (submitted tr).
Proof.
  induction 1 as [|ev tr Hev _ IH]; simpl; [constructor|].
  destruct ev; simpl in *; try done. case_decide; [done|]. by constructor.
Qed.

(** What one step does to the calls that wait and to those that ran. *)
Lemma step_fifo s tr i s' evs :
  wf s tr -> step s i = Some (s', evs) ->
  invoked evs ++ waiting s' `sublist_of` waiting s ++ submitted evs /\
  (i <> Clear -> i <> Cancel -> invoked evs ++ waiting s' = waiting s ++ submitted evs) /\
  (submitted evs = [] \/ submitted evs = [next_call s]).
Proof.
  intros [H1 H2 H3 H4 H5 H6 H8 H7] H. unfold waiting, not_started. step_cases H.
  all: unfold q_entries in *; simpl in *.
  all: try (specialize (H6 eq_refl); simplify_eq).
  all: use_handlers H7 H8.
  all: rewrite ?invoked_app, ?submitted_app, ?invoked_canceled, ?submitted_canceled; simpl.
  all: repeat case_match; simplify_eq/=.
  all: rewrite ?callers_app; simpl; repeat case_decide; simplify_eq/=.
  all: rewrite ?app_nil_r.
  all: split_and!; try done; eauto.
  all: try (intros; done).
  all: first [ apply sublist_nil_l | apply sublist_skip, sublist_nil_l ].
Qed.

Lemma reach_fifo s tr :
  reach s tr ->
  invoked tr ++ waiting s `sublist_of` submitted tr /\ NoDup (submitted tr).
Proof.
  induction 1 as [|s tr i s' evs Hr [IH1 IH2] Hs].
  - split; [done|constructor].
  - pose proof (reach_wf _ _ Hr) as Hwf.
    destruct (step_fifo _ _ _ _ _ Hwf Hs) as (Hsub & _ & Hnew).
    rewrite invoked_app, submitted_app. split.
    + rewrite <- app_assoc. etrans; [by apply sublist_app|].
      rewrite app_assoc. by apply sublist_app.
    + destruct Hnew as [->| ->]; [by rewrite app_nil_r|].
      apply NoDup_app. split_and!; [done| |apply NoDup_singleton].
      intros c Hc Hc'. apply list_elem_of_singleton in Hc' as ->.
      pose proof (submitted_bound _ _ (wf_trace _ _ Hwf)) as Hb.
      rewrite Forall_forall in Hb. apply Hb in Hc. lia.
Qed.



(** *** The barrier *)

Lemma inbody_ok_step s tr i s' evs :
  wf s tr -> inbody_ok s tr -> step s i = Some (s', evs) -> inbody_ok s' (tr ++ evs).
Proof.
  intros [H1 H2 H3 H4 H5 H6 H8 H7] Hu H. unfold inbody_ok in *. step_cases H.
  all: unfold q_entries in *; simpl in *.
  all: try (specialize (H6 eq_refl); simplify_eq).
  all: use_handlers H7 H8.
  all: intros e' ? ?; simplify_eq/=.
  all: rewrite ?elem_of_app, ?elem_of_cons; eauto.
Qed.

Lemma reach_inbody_ok s tr : reach s tr -> inbody_ok s tr.
Proof.
  induction 1 as [|s tr i s' evs Hr IH Hs].
  - by intros e ?.
  - eapply inbody_ok_step; eauto using reach_wf.
Qed.

Lemma done_by_app e tr evs : done_by e tr -> done_by e (tr ++ evs).
Proof.
  intros (u1 & u2 & -> & Hinv). exists u1, (u2 ++ evs). split; [|done].
  by rewrite <- app_assoc.
Qed.

Lemma q_open_entries q e : e ∈ q_open q -> e ∈ q_entries q.
Proof.
  unfold q_open, q_entries. destruct (q_running q); [|done].
  destruct (q_discard q); [|done]. by right.
Qed.

Lemma reach_running_facts s tr : reach s tr -> running_facts s tr.
Proof.
  intros Hr e He. split_and!.
  - intros Hph. pose proof (reach_inbody_ok _ _ Hr e He Hph) as Hin.
    split; [done|]. pose proof (running_args _ _ _ Hr He) as Ha.
    by destruct (invoke_args _ _ _ _ Hr Hin).
  - intros Hph. by apply (reach_unlocked_ok _ _ Hr).
  - intros Hb. pose proof (barrier_args _ _ _ Hr Hb) as Ha.
    pose proof (running_args _ _ _ Hr He) as Ha'. by simplify_eq.
Qed.

Lemma barrier_step e s tr i s' evs :
  reach s tr -> no_reset i ->
  done_by e tr \/ e ∈ q_open (executeFn s) ->
  step s i = Some (s', evs) ->
  done_by e (tr ++ evs) \/ e ∈ q_open (executeFn s').
Proof.
  intros Hr [Hi1 Hi2] [Hd|Hopen] H; [left; by apply done_by_app|].
  pose proof (reach_running_facts _ _ Hr) as Hf.
  destruct (reach_wf _ _ Hr) as [H1 H2 H3 H4 H5 H6 H8 H7].
  clear Hr. unfold running_facts, q_open in *. step_cases H.
  all: unfold q_entries in *; simpl in *.
  all: try (specialize (H6 eq_refl); simplify_eq).
  all: use_handlers H7 H8.
  all: try (right; rewrite ?elem_of_app, ?elem_of_cons in *; by eauto).
  all: try (right; destruct dis; rewrite ?elem_of_app, ?elem_of_cons in *; tauto).
  all: apply elem_of_cons in Hopen as [->|Hopen];
    [|right; repeat (rewrite elem_of_cons || rewrite elem_of_app);
      repeat (rewrite elem_of_cons in Hopen || rewrite elem_of_app in Hopen); tauto].
  all: try (by right; left).
  all: left; destruct (Hf _ eq_refl) as (Hb & _ & _).
  all: first
    [ exists (tr ++ [ESkip (e_id e0)]); eexists; unfold Lock.result_of;
      rewrite decide_True by done; split; [by rewrite <- app_assoc|done]
    | destruct (Hb eq_refl) as [Hin Hne]; exists tr; eexists; unfold Lock.result_of;
      rewrite decide_False by done; split; [done|by intros _] ].
Qed.

Lemma barrier_run e inputs s tr s' evs :
  reach s tr -> Forall no_reset inputs ->
  done_by e tr \/ e ∈ q_open (executeFn s) ->
  run s inputs = Some (s', evs) ->
  done_by e (tr ++ evs) \/ e ∈ q_open (executeFn s').
Proof.
  revert s tr s' evs. induction inputs as [|i inputs IH]; intros s tr s' evs Hr Hall Hinv Hrun;
    simpl in Hrun.
  - simplify_eq. by rewrite app_nil_r.
  - destruct (step s i) as [[s1 e1]|] eqn:Hs; [|done].
    destruct (run s1 inputs) as [[s2 e2]|] eqn:Hrest; [|done]. simplify_eq.
    inversion Hall as [|?? Hi Hall']; subst. rewrite app_assoc.
    eapply IH; [by econstructor|done| |done]. by eapply barrier_step.
Qed.

(** *** Wake-ups *)

Lemma handlers_ok_step s tr i s' evs :
  wf s tr -> handlers_ok s -> step s i = Some (s', evs) -> handlers_ok s'.
Proof.
  intros [H1 H2 H3 H4 H5 H6 H8 H7] [Hw Hz] H. unfold handlers_ok, handlers in *.
  step_cases H.
  all: unfold q_entries in *; simpl in *.
  all: try (specialize (H6 eq_refl); simplify_eq).
  all: use_handlers H7 H8.
  all: split; [intros e' ? ?; simplify_eq/=|intros Hne; simpl in *; try done; try lia].
  all: rewrite ?app_nil_r.
  all: try (rewrite ?elem_of_app, ?elem_of_cons; by eauto).
  all: try (specialize (Hw _ eq_refl eq_refl); rewrite ?elem_of_app, ?elem_of_cons in *; tauto).
Qed.

Lemma handlers_ok_init : handlers_ok init.
Proof. split; [by intros e ?|done]. Qed.

Lemma reach_handlers_ok s tr : reach s tr -> handlers_ok s.
Proof.
  induction 1 as [|s tr i s' evs Hr IH Hs].
  - apply handlers_ok_init.
  - eapply handlers_ok_step; eauto using reach_wf.
Qed.

Lemma reach_handlers s tr : reach s tr -> handlers s = expected_handlers s.
Proof.
  intros Hr. destruct (reach_wf _ _ Hr) as [_ _ _ _ _ _ Hlen Hown].
  destruct (reach_handlers_ok _ _ Hr) as [Hw _].
  unfold handlers, expected_handlers in *.
  destruct (notified s ++ bs_once (lockSubject s)) as [|x [|y l]] eqn:Hl.
  - destruct (q_running (executeFn s)) as [e|]; [|done].
    destruct (run_phase s); try done. specialize (Hw e eq_refl eq_refl).
    by apply elem_of_nil in Hw.
  - destruct (Hown x) as (-> & e & -> & <-); [by left|done].
  - simpl in Hlen. lia.
Qed.

(** The depth is back at zero while a call waits: its handler is
    scheduled, reads zero when it is called, and the executor can go on. *)
Lemma wake_at_zero s tr e :
  reach s tr -> q_running (executeFn s) = Some e -> run_phase s = Waiting ->
  lockCount s = 0 ->
  notified s = [e_id e] /\ bs_once (lockSubject s) = [] /\
  step s Deliver = Some (set_phase Unlocked (set_notified [] s), [ECheck (e_id e) 0]).
Proof.
  intros Hr He Hph Hd.
  pose proof (reach_handlers _ _ Hr) as Hh.
  destruct (reach_handlers_ok _ _ Hr) as [_ Hz].
  pose proof (wf_mirror _ _ (reach_wf _ _ Hr)) as Hm.
  unfold handlers, expected_handlers in Hh. rewrite He, Hph in Hh.
  destruct (bs_once (lockSubject s)) as [|x l] eqn:Ho.
  - rewrite app_nil_r in Hh. split_and!; [done|done|].
    simpl. rewrite Hh. unfold handler, resolve. simpl.
    rewrite Hm, Hd, He, Hph. simpl. by rewrite decide_True.
  - exfalso. apply Hz; [done|]. by rewrite Hm.
Qed.

(** X1: the subject always holds the depth counter, so that a wait reads
    the depth of the moment, and a handler is subscribed to the subject
    only while the depth is above zero. *)
Theorem subject_mirrors_depth (inputs : list input) (s : state) (tr : list event) :
  run init inputs = Some (s, tr) ->
  bs_data (lockSubject s) = lockCount s /\
  (bs_once (lockSubject s) <> [] -> 0 < lockCount s).
Proof.
  intros Hrun. apply run_reach in Hrun.
  pose proof (reach_wf _ _ Hrun) as Hwf.
  destruct (reach_handlers_ok _ _ Hrun) as [_ Hz].
  split; [by apply (wf_mirror _ _ Hwf)|].
  intros Hne. specialize (Hz Hne). rewrite (wf_mirror _ _ Hwf) in Hz.
  pose proof (wf_depth _ _ Hwf). lia.
Qed.

(** X2: the waits leave no handler behind and lose none.  In every state
    the handlers that are scheduled or subscribed are exactly the handler
    of the running call while that call waits, and none otherwise: there
    is never more than one, none survives the wait it belongs to, and the
    replacement of the subject by [clear] strands none. *)
Theorem one_handler_while_waiting (inputs : list input) (s : state) (tr : list event) :
  run init inputs = Some (s, tr) ->
  notified s ++ bs_once (lockSubject s) =
  match q_running (executeFn s), run_phase s with
  | Some e, Waiting => [e_id e]
  | _, _ => []
  end.
Proof. intros Hrun. apply (reach_handlers s tr). by eapply run_reach. Qed.

(** X3: no wake-up is lost.  Whenever a call waits and the depth is zero,
    the handler of its wait is scheduled; its delivery reads zero and
    resolves the wait, and the continuation of the executor is enabled
    next: it calls the user's function for a call of the wrapper. *)
Theorem waiting_call_wakes_at_zero (pre : list input) (s : state) (tr : list event)
    (e : entry) :
  run init pre = Some (s, tr) ->
  q_running (executeFn s) = Some e ->
  run_phase s = Waiting ->
  lockCount s = 0 ->
  exists s1,
    step s Deliver = Some (s1, [ECheck (e_id e) 0]) /\
    run_phase s1 = Unlocked /\
    q_running (executeFn s1) = Some e /\
    notified s1 ++ bs_once (lockSubject s1) = [] /\
    (first (e_args e) <> NEVER_VALUE ->
       step s1 Resume = Some (set_phase InBody s1, [EInvoke (e_id e) (e_args e)])).
Proof.
  intros Hpre He Hph Hd. apply run_reach in Hpre.
  destruct (wake_at_zero _ _ _ Hpre He Hph Hd) as (Hn & Ho & Hstep).
  eexists. split; [exact Hstep|]. split; [done|]. split; [done|]. split.
  - simpl. exact Ho.
  - intros Hne. simpl. rewrite He. unfold resume. simpl. by rewrite decide_False.
Qed.

(** X4: [clear] does not drop the call that waits on the lock, it releases
    it.  From every state in which a call of the wrapper waits, whatever
    the depth, [clear] followed by the delivery to its handler and the
    continuation of the executor runs through and invokes the body of
    that call; the pending calls are answered with the cancellation
    marker. *)
Theorem clear_releases_waiting_call (pre : list input) (s : state) (tr : list event)
    (e : entry) :
  run init pre = Some (s, tr) ->
  q_running (executeFn s) = Some e ->
  run_phase s = Waiting ->
  first (e_args e) <> NEVER_VALUE ->
  exists s3,
    run s [Clear; Deliver; Resume] =
      Some (s3, map canceled (q_pending (executeFn s))
                ++ [ECheck (e_id e) 0; EInvoke (e_id e) (e_args e)]) /\
    run_phase s3 = InBody /\
    q_running (executeFn s3) = Some e /\
    lockCount s3 = 0.
Proof.
  intros Hpre He Hph Hne. apply run_reach in Hpre.
  pose proof (clear_eq s) as Hc.
  set (s1 := mkState 0 (new_subject (S (bs_id (lockSubject s))) 0)
               (mkQueue (q_running (executeFn s)) (q_discard (executeFn s)) [])
               (run_phase s) (notified s ++ bs_once (lockSubject s)) (next_call s)) in Hc.
  assert (Hs1 : step s Clear = Some (s1, map canceled (q_pending (executeFn s)))).
  { unfold Lock.step. by rewrite Hc. }
  assert (Hr1 : reach s1 (tr ++ map canceled (q_pending (executeFn s)))).
  { by apply (reach_step promise s tr Clear). }
  destruct (wake_at_zero s1 _ e Hr1) as (_ & _ & Hs2); [done..|].
  set (s2 := set_phase Unlocked (set_notified [] s1)) in Hs2.
  assert (Hs3 : step s2 Resume = Some (set_phase InBody s2, [EInvoke (e_id e) (e_args e)])).
  { unfold Lock.step, s2, s1. simpl. rewrite He. unfold resume. simpl.
    by rewrite decide_False. }
  exists (set_phase InBody s2). split.
  - cbn [Lock.run]. rewrite Hs1, Hs2, Hs3. by rewrite app_nil_r.
  - by split_and!.
Qed.

(** *** What reaches the user's function and what comes back *)

Abbreviation settle_ok := (Lock.settle_ok promise).
Abbreviation held := (Lock.held promise).

Lemma settle_ok_mono tr evs ev : settle_ok tr ev -> settle_ok (tr ++ evs) ev.
Proof.
  destruct ev; simpl; try done. intros [?|(a & Ha & Hr & Hi)]; [by left|right].
  exists a. split_and!; [by apply args_of_old|done|].
  intros Hne. apply elem_of_app. left. by apply Hi.
Qed.

Lemma settle_ok_canceled tr l : Forall (settle_ok tr) (map canceled l).
Proof. induction l; simpl; constructor; [by left|done]. Qed.

Lemma settle_ok_step s tr i s' evs :
  reach s tr -> Forall (settle_ok tr) tr -> step s i = Some (s', evs) ->
  Forall (settle_ok (tr ++ evs)) (tr ++ evs).
Proof.
  intros Hr Ht H. apply Forall_app. split.
  { eapply Forall_impl; [exact Ht|]. intros. by apply settle_ok_mono. }
  pose proof (reach_running_facts _ _ Hr) as Hf.
  assert (Hargs : forall e, q_running (executeFn s) = Some e ->
                    args_of (e_id e) tr = Some (e_args e)).
  { intros e He. by eapply running_args. }
  clear Hr Ht. unfold running_facts in Hf. step_cases H.
  all: repeat (apply Forall_app; split); repeat apply Forall_cons_2;
       try apply Forall_nil_2; try apply settle_ok_canceled; simpl; try done.
  all: try (by left).
  all: right; exists (e_args e); destruct (Hf _ eq_refl) as (Hb & _ & _);
       unfold Lock.result_of; simpl.
  all: first
    [ rewrite decide_True by done; split_and!;
      [by apply args_of_old, Hargs|done|done]
    | destruct (Hb eq_refl) as [Hin Hne]; rewrite decide_False by done; split_and!;
      [by apply args_of_old, Hargs|done|intros _; apply elem_of_app; by left] ].
Qed.

Lemma reach_settle_ok s tr : reach s tr -> Forall (settle_ok tr) tr.
Proof.
  induction 1 as [|s tr i s' evs Hr IH Hs]; [constructor|].
  by eapply settle_ok_step.
Qed.

(** X5: the user's function is called at most once for a call, and only
    with an argument list that the wrapper was called with, which never
    starts with the sentinel. *)
Theorem body_invoked_once_with_call_args (inputs : list input) (s : state)
    (tr : list event) :
  run init inputs = Some (s, tr) ->
  (forall c a, EInvoke c a ∈ tr ->
     ECall c a ∈ tr /\ Call a ∈ inputs /\ first a <> NEVER_VALUE) /\
  NoDup (invoked tr).
Proof.
  intros Hrun. pose proof (run_reach _ _ _ Hrun) as Hr. split.
  - intros c a Hin. destruct (invoke_args _ _ _ _ Hr Hin) as [Ha Hne].
    destruct (args_of_origin _ _ _ Ha) as [Hc|[_ ->]]; [|done].
    split_and!; [done| |done]. by eapply run_call_events.
  - destruct (reach_fifo _ _ Hr) as [Hsub Hnd].
    assert (Hnd' : NoDup (invoked tr ++ waiting s)) by (by eapply sublist_NoDup).
    by apply NoDup_app in Hnd' as (? & _ & _).
Qed.

(** X6: the lock adds nothing to what a caller gets.  The promise of a
    call of the wrapper settles with the cancellation marker; or, for an
    argument list that does not start with the sentinel, with the very
    settlement of the user's promise for the arguments of that call,
    fulfilment and rejection alike, after the body was invoked; or, for
    an argument list that starts with the sentinel, which no caller
    outside the module can build, with null and without an invocation of
    the user's function. *)
Theorem call_settles_with_function_result (inputs : list input) (s : state)
    (tr : list event) (c : nat) (a : list value) (res : outcome) :
  run init inputs = Some (s, tr) ->
  ECall c a ∈ tr ->
  ESettle c res ∈ tr ->
  res = Fulfilled CANCELED_SYMBOL \/
  (first a <> NEVER_VALUE /\ res = promise a /\ EInvoke c a ∈ tr) \/
  (first a = NEVER_VALUE /\ res = Fulfilled VNull /\ forall a', EInvoke c a' ∉ tr).
Proof.
  intros Hrun Hcall Hset. pose proof (run_reach _ _ _ Hrun) as Hr.
  pose proof (reach_settle_ok _ _ Hr) as Hok. rewrite Forall_forall in Hok.
  destruct (Hok _ Hset) as [?|(a' & Ha' & Hres & Hinv)]; [by left|right].
  pose proof (call_args _ _ _ _ Hr Hcall) as Ha. simplify_eq.
  unfold Lock.result_of. simpl. case_decide as Hfirst; [right|left; by split_and!; auto].
  split_and!; try done. intros b Hin.
  destruct (invoke_args _ _ _ _ Hr Hin) as [Hb Hne]. by simplify_eq.
Qed.

(** *** The promise of [endLock] *)

Lemma settled_app c tr evs :
  settled c (tr ++ evs) =
  match settled c tr with Some r => Some r | None => settled c evs end.
Proof.
  induction tr as [|ev tr IH]; simpl; [by destruct (settled c evs)|].
  destruct ev; try done. by case_decide.
Qed.

Lemma settled_in c tr r : settled c tr = Some r -> ESettle c r ∈ tr.
Proof.
  induction tr as [|ev tr IH]; simpl; [done|].
  destruct ev; try (intros; right; by apply IH).
  case_decide; intros; simplify_eq; [by left|right; by apply IH].
Qed.

Lemma settled_fresh c tr :
  Forall (fun ev => (ev_call ev < c)%nat) tr -> settled c tr = None.
Proof.
  induction 1 as [|ev tr Hev _ IH]; simpl; [done|].
  destruct ev; simpl in *; try done. case_decide; [lia|done].
Qed.

Lemma barrier_fresh c tr :
  Forall (fun ev => (ev_call ev < c)%nat) tr -> EBarrier c ∉ tr.
Proof.
  intros Hall Hin. rewrite Forall_forall in Hall. apply Hall in Hin. simpl in Hin. lia.
Qed.

(** The promise of an [endLock] that is still to come is read off the
    events from its call on. *)
Lemma endLock_promise_fresh c tr evs :
  Forall (fun ev => (ev_call ev < c)%nat) tr ->
  endLock_promise c (tr ++ evs) = endLock_promise c evs.
Proof.
  intros Hall. unfold endLock_promise.
  rewrite settled_app, (settled_fresh _ _ Hall).
  pose proof (barrier_fresh _ _ Hall) as Hno.
  destruct (decide (EBarrier c ∈ evs)) as [Hin|Hout].
  - rewrite decide_True; [done|]. apply elem_of_app. by right.
  - rewrite decide_False; [done|]. intros [?|?]%elem_of_app; done.
Qed.

(** The promise of [endLock] settles when the promise of its sentinel call
    does. *)
Lemma endLock_promise_settles c tr evs r :
  endLock_promise c tr = None -> endLock_promise c (tr ++ evs) = Some r ->
  EBarrier c ∈ tr ->
  exists r0, ESettle c r0 ∈ evs /\ r = endLock_returns r0.
Proof.
  unfold endLock_promise. intros Hpend Hset Hb.
  rewrite decide_True in Hpend by done.
  rewrite decide_True in Hset by (apply elem_of_app; by left).
  rewrite settled_app in Hset. destruct (settled c tr); [done|].
  destruct (settled c evs) as [r0|] eqn:Hs; [|done]. simplify_eq/=.
  exists r0. split; [by apply settled_in|done].
Qed.

(** The promise of [endLock] is never rejected: the sentinel call ends
    with null or is answered with the cancellation marker, and either way
    [endLock] returns nothing. *)
Lemma endLock_promise_undefined s tr c r :
  reach s tr -> endLock_promise c tr = Some r -> r = Fulfilled VUndefined.
Proof.
  intros Hr. unfold endLock_promise. case_decide as Hb; [|done].
  destruct (settled c tr) as [r0|] eqn:Hs; [|done]. intros ?; simplify_eq/=.
  apply settled_in in Hs.
  pose proof (reach_settle_ok _ _ Hr) as Hok. rewrite Forall_forall in Hok.
  destruct (Hok _ Hs) as [->|(a & Ha & -> & _)]; [done|].
  pose proof (barrier_args _ _ _ Hr Hb) as Ha'. simplify_eq.
  unfold Lock.result_of. simpl. by repeat case_decide.
Qed.

(** *** [endLock] on an idle lock *)

Lemma idle_shape s tr :
  reach s tr -> q_running (executeFn s) = None ->
  q_pending (executeFn s) = [] /\ notified s = [] /\ bs_once (lockSubject s) = [] /\
  bs_data (lockSubject s) = lockCount s /\ 0 <= lockCount s.
Proof.
  intros Hr Hidle. pose proof (reach_wf _ _ Hr) as Hwf.
  pose proof (reach_handlers _ _ Hr) as Hh.
  unfold handlers, expected_handlers in Hh. rewrite Hidle in Hh.
  apply app_eq_nil in Hh as [Hn Ho].
  split_and!; try done; [by apply (wf_idle _ _ Hwf)|by apply (wf_mirror _ _ Hwf)|
                         by apply (wf_depth _ _ Hwf)].
Qed.

(** X7: [endLock] on a lock whose queue is idle.  The promise [endLock]
    returns is pending when [endLock] has returned.  When [endLock] has
    brought the depth to zero, the sentinel call has read zero at once and
    the next continuation ends it with null, which fulfils the promise of
    [endLock] with undefined and leaves the queue idle again: nothing
    else is needed.  When the depth stays above zero, as for the inner
    [endLock] of a nested lock, the sentinel call subscribes and waits,
    and no turn of the scheduler is enabled: the promise of [endLock]
    stays pending until the lock is called again. *)
Theorem endLock_on_idle_lock (pre : list input) (s : state) (tr : list event) :
  run init pre = Some (s, tr) ->
  q_running (executeFn s) = None ->
  (lockCount s <= 1 ->
     exists s2,
       run s [EndLock; Resume] =
         Some (s2, [EBarrier (next_call s); ECheck (next_call s) 0;
                    ESkip (next_call s); ESettle (next_call s) (Fulfilled VNull)]) /\
       endLock_promise (next_call s)
         (tr ++ [EBarrier (next_call s); ECheck (next_call s) 0]) = None /\
       endLock_promise (next_call s)
         (tr ++ [EBarrier (next_call s); ECheck (next_call s) 0;
                 ESkip (next_call s); ESettle (next_call s) (Fulfilled VNull)])
         = Some (Fulfilled VUndefined) /\
       lockCount s2 = 0 /\
       q_running (executeFn s2) = None /\ q_pending (executeFn s2) = []) /\
  (1 < lockCount s ->
     exists s1,
       step s EndLock =
         Some (s1, [EBarrier (next_call s); ECheck (next_call s) (lockCount s - 1);
                    ESubscribe (next_call s) (bs_id (lockSubject s))]) /\
       endLock_promise (next_call s)
         (tr ++ [EBarrier (next_call s); ECheck (next_call s) (lockCount s - 1);
                 ESubscribe (next_call s) (bs_id (lockSubject s))]) = None /\
       lockCount s1 = lockCount s - 1 /\
       run_phase s1 = Waiting /\
       bs_once (lockSubject s1) = [next_call s] /\
       step s1 Resume = None /\ step s1 Deliver = None /\ step s1 Settle = None).
Proof.
  intros Hpre Hidle. apply run_reach in Hpre.
  destruct (idle_shape _ _ Hpre Hidle) as (Hpend & Hnot & Honce & Hm & Hd).
  pose proof (wf_trace _ _ (reach_wf _ _ Hpre)) as Htr.
  assert (Hprom : forall evs,
    endLock_promise (next_call s) (tr ++ EBarrier (next_call s) :: evs) =
    endLock_returns <$> settled (next_call s) evs).
  { intros evs. rewrite (endLock_promise_fresh _ _ _ Htr). unfold endLock_promise.
    rewrite decide_True by (by left). done. }
  rewrite !Hprom. clear Hprom Htr.
  destruct s as [n [sid d once] [r dis pend] ph nt nx]. simpl in *. subst. split.
  - intros Hle. assert (Hmax : Z.max (n - 1) 0 = 0) by lia.
    unfold endLock, submit, start, waitForUnlock, handler, resolve,
      broadcast, bs_next, q_submit; simpl. rewrite !Hmax. simpl.
    rewrite decide_True by done. simpl.
    unfold resume, Lock.finish, q_finish, q_deliver; simpl.
    eexists. split; [reflexivity|]. simpl. rewrite decide_True by done. by split_and!.
  - intros Hlt. assert (Hmax : Z.max (n - 1) 0 = n - 1) by lia.
    unfold endLock, submit, start, waitForUnlock, handler, resolve,
      broadcast, bs_next, q_submit; simpl. rewrite !Hmax.
    rewrite decide_False by lia. simpl.
    eexists. split; [reflexivity|]. simpl. by split_and!.
Qed.

(** *** A lock that stays held *)

Lemma last_check_in c l d : last_check c l = Some d -> ECheck c d ∈ l.
Proof.
  induction l as [|ev l IH]; simpl; [done|].
  destruct (last_check c l) as [d'|] eqn:Hl.
  - intros Hd. simplify_eq. right. by apply IH.
  - destruct ev; try done. case_decide; [|done]. intros Hd. simplify_eq. by left.
Qed.

Lemma check_reads_depth s tr i s' evs c v :
  reach s tr -> step s i = Some (s', evs) -> ECheck c v ∈ evs -> v = lockCount s'.
Proof.
  intros Hr H Hin. destruct (reach_wf _ _ Hr) as [H1 H2 H3 H4 H5 H6 H8 H7].
  clear Hr. step_cases H; by split_events Hin.
Qed.

Lemma invoke_after_zero s tr i s' evs c a :
  reach s tr -> step s i = Some (s', evs) -> EInvoke c a ∈ evs ->
  last_check c tr = Some 0.
Proof.
  intros Hr H Hin. pose proof (reach_unlocked_ok _ _ Hr) as Hu.
  clear Hr. unfold unlocked_ok in Hu. step_cases H; split_events Hin.
  by apply Hu.
Qed.

Lemma held_depth s inputs : held s inputs -> 0 < lockCount s.
Proof. destruct inputs; simpl; by intros [? _]. Qed.

Lemma held_run c post s tr s' tr' :
  reach s tr -> last_check c tr <> Some 0 -> held s post ->
  run s post = Some (s', tr') ->
  forall a, EInvoke c a ∉ tr'.
Proof.
  revert s tr s' tr'. induction post as [|i post IH]; intros s tr s' tr' Hr Hl Hh Hrun;
    simpl in Hrun.
  - simplify_eq. intros a. apply not_elem_of_nil.
  - destruct Hh as [_ Hh].
    destruct (step s i) as [[s1 e1]|] eqn:Hs; [|done].
    destruct (run s1 post) as [[s2 e2]|] eqn:Hrest; [|done]. simplify_eq.
    assert (Hr1 : reach s1 (tr ++ e1)) by (by econstructor).
    assert (Hl1 : last_check c (tr ++ e1) <> Some 0).
    { rewrite last_check_app. destruct (last_check c e1) as [d|] eqn:He1; [|done].
      intros Hd. simplify_eq. apply last_check_in in He1.
      pose proof (check_reads_depth _ _ _ _ _ _ _ Hr Hs He1) as Hz.
      pose proof (held_depth _ _ Hh). lia. }
    intros a Hin. apply elem_of_app in Hin as [Hin|Hin].
    + by pose proof (invoke_after_zero _ _ _ _ _ _ _ Hr Hs Hin).
    + by apply (IH _ _ _ _ Hr1 Hl1 Hh Hrest a).
Qed.

(** X8: a lock that stays held holds calls back.  Let the wait of call
    [c] not have read depth zero as its last reading: the call is still
    to come, is queued, or waits.  Along inputs through which the depth
    stays above zero, in every state they lead through, the body of [c] is
    never invoked. *)
Theorem held_lock_blocks_body (pre : list input) (s : state) (tr : list event)
    (c : nat) (post : list input) (s' : state) (tr' : list event) :
  run init pre = Some (s, tr) ->
  last_check c tr <> Some 0 ->
  held s post ->
  run s post = Some (s', tr') ->
  forall a, EInvoke c a ∉ tr'.
Proof.
  intros Hpre Hl Hh Hrun. apply run_reach in Hpre. by eapply held_run.
Qed.

(** *** A released lock drains its queue *)

Lemma finish_queue e res s :
  executeFn (Lock.finish e res s).1 = q_finish (executeFn s) /\
  lockCount (Lock.finish e res s).1 = lockCount s.
Proof.
  destruct s as [n [sid d once] [r dis pend] ph nt nx].
  unfold Lock.finish, start, waitForUnlock, handler, resolve, q_finish; simpl.
  destruct pend as [|e' rest]; simpl; [done|].
  case_decide; simpl; [|done]. by case_decide.
Qed.

Ltac solve_turns :=
  repeat (apply Forall_cons_2; [unfold scheduler_turn; auto|]); try apply Forall_nil_2;
  try done.

(** With the depth at zero the scheduler brings the running call through:
    the queue moves on by one entry. *)
Lemma running_call_completes s tr e :
  reach s tr -> lockCount s = 0 -> q_running (executeFn s) = Some e ->
  exists sched s' tr',
    Forall scheduler_turn sched /\ run s sched = Some (s', tr') /\
    executeFn s' = q_finish (executeFn s) /\ lockCount s' = 0.
Proof.
  intros Hr Hd He.
  assert (Hbody : forall s1, q_running (executeFn s1) = Some e ->
            run_phase s1 = InBody -> lockCount s1 = 0 ->
            exists s' tr', run s1 [Settle] = Some (s', tr') /\
              executeFn s' = q_finish (executeFn s1) /\ lockCount s' = 0).
  { intros s1 He1 Hph1 Hd1. simpl. rewrite He1, Hph1.
    destruct (finish_queue e (promise (e_args e)) s1) as [Hq Hl].
    destruct (Lock.finish e (promise (e_args e)) s1) as [s' tr'].
    exists s', (tr' ++ []). simpl in *. split_and!; [done|done|by rewrite Hl]. }
  assert (Hgo : forall s1, q_running (executeFn s1) = Some e ->
            run_phase s1 = Unlocked -> lockCount s1 = 0 ->
            exists sched s' tr', Forall scheduler_turn sched /\
              run s1 sched = Some (s', tr') /\
              executeFn s' = q_finish (executeFn s1) /\ lockCount s' = 0).
  { intros s1 He1 Hph1 Hd1.
    destruct (decide (first (e_args e) = NEVER_VALUE)) as [Hsen|Hord].
    - exists [Resume]. simpl. rewrite He1, Hph1. unfold resume.
      rewrite decide_True by done.
      destruct (finish_queue e (Fulfilled VNull) s1) as [Hq Hl].
      destruct (Lock.finish e (Fulfilled VNull) s1) as [s' tr'].
      exists s', ((ESkip (e_id e) :: tr') ++ []). simpl in *.
      split_and!; [solve_turns|done|done|by rewrite Hl].
    - destruct (Hbody (set_phase InBody s1) He1 eq_refl Hd1) as (s' & tr' & Hrun & Hq & Hl).
      exists [Resume; Settle], s', ([EInvoke (e_id e) (e_args e)] ++ tr').
      split_and!; [solve_turns| |done|done].
      cbn [Lock.run]. cbn [Lock.run] in Hrun.
      assert (Hres : step s1 Resume =
                Some (set_phase InBody s1, [EInvoke (e_id e) (e_args e)])).
      { simpl. rewrite He1, Hph1. unfold resume. by rewrite decide_False. }
      rewrite Hres. destruct (step (set_phase InBody s1) Settle) as [[s2 e2]|]; [|done].
      by simplify_eq. }
  destruct (run_phase s) eqn:Hph.
  - destruct (wake_at_zero _ _ _ Hr He Hph Hd) as (_ & _ & Hstep).
    destruct (Hgo (set_phase Unlocked (set_notified [] s))) as (sched & s' & tr' & Hall & Hrun & Hq & Hl);
      [done..|].
    exists (Deliver :: sched), s', ([ECheck (e_id e) 0] ++ tr').
    split_and!; [solve_turns| |done|done].
    cbn [Lock.run]. by rewrite Hstep, Hrun.
  - by apply Hgo.
  - destruct (Hbody s He Hph Hd) as (s' & tr' & Hrun & Hq & Hl).
    exists [Settle], s', tr'. split_and!; [solve_turns|done..].
Qed.

Lemma scheduler_turn_no_reset sched : Forall scheduler_turn sched -> Forall no_reset sched.
Proof.
  intros H. eapply Forall_impl; [exact H|]. intros i [->|[->| ->]]; by split.
Qed.

Lemma queue_drains (n : nat) s tr :
  reach s tr -> lockCount s = 0 -> length (q_pending (executeFn s)) = n ->
  exists sched s' tr',
    Forall scheduler_turn sched /\ run s sched = Some (s', tr') /\
    q_running (executeFn s') = None /\ q_pending (executeFn s') = [] /\
    lockCount s' = 0.
Proof.
  revert s tr. induction n as [|n IH]; intros s tr Hr Hd Hlen.
  - destruct (q_running (executeFn s)) as [e|] eqn:He.
    + destruct (running_call_completes _ _ _ Hr Hd He) as (sched & s' & tr' & Hall & Hrun & Hq & Hl).
      exists sched, s', tr'. apply length_zero_iff_nil in Hlen.
      unfold q_finish in Hq. rewrite Hlen in Hq. rewrite Hq. by split_and!.
    + exists [], s, []. split_and!; [constructor|done|done| |done].
      by apply (wf_idle _ _ (reach_wf _ _ Hr)).
  - destruct (q_running (executeFn s)) as [e|] eqn:He.
    + destruct (running_call_completes _ _ _ Hr Hd He) as (sched & s1 & tr1 & Hall & Hrun & Hq & Hl).
      pose proof (reach_run _ _ _ _ _ Hr Hrun) as Hr1.
      destruct (q_pending (executeFn s)) as [|e' rest] eqn:Hp; [done|].
      destruct (IH s1 _ Hr1 Hl) as (sched2 & s2 & tr2 & Hall2 & Hrun2 & Hq2);
        [rewrite Hq; unfold q_finish; rewrite Hp; simpl in *; lia|].
      destruct Hq2 as (Hq2 & Hp2 & Hl2).
      exists (sched ++ sched2), s2, (tr1 ++ tr2).
      split_and!; [by apply Forall_app| |done|done|done].
      by rewrite run_app, Hrun, Hrun2.
    + pose proof (wf_idle _ _ (reach_wf _ _ Hr) He) as Hp. by rewrite Hp in Hlen.
Qed.

(** X9: a released lock cannot get stuck.  From every state with the
    depth at zero there is a sequence of scheduler turns alone, deliveries,
    continuations and settlements of the user's promises, that runs
    through and leaves the queue idle with the depth still zero; and with
    it every call that was in the queue, its caller not yet answered, is
    through: its body was invoked and its promise has settled with the
    result of the executor. *)
Theorem released_lock_drains (pre : list input) (s : state) (tr : list event) :
  run init pre = Some (s, tr) ->
  lockCount s = 0 ->
  exists sched s' tr',
    Forall scheduler_turn sched /\
    run s sched = Some (s', tr') /\
    q_running (executeFn s') = None /\ q_pending (executeFn s') = [] /\
    lockCount s' = 0 /\
    forall e, e ∈ q_open (executeFn s) -> done_by e (tr ++ tr').
Proof.
  intros Hpre Hd. apply run_reach in Hpre.
  destruct (queue_drains _ s tr Hpre Hd eq_refl)
    as (sched & s' & tr' & Hall & Hrun & Hq & Hp & Hl).
  exists sched, s', tr'. split_and!; try done.
  intros e He.
  destruct (barrier_run e sched s tr s' tr' Hpre (scheduler_turn_no_reset _ Hall)
              (or_intror He) Hrun) as [?|Hopen]; [done|].
  unfold q_open in Hopen. rewrite Hq, Hp in Hopen. by apply elem_of_nil in Hopen.
Qed.

(** *** [endLock] as a barrier *)

(** The step that settles the promise of a sentinel call, outside a
    reset: the continuation of the executor, for the sentinel call that is
    running and whose wait has read depth zero, with null. *)
Lemma sentinel_settle_shape (b : nat) s tr i s' evs res :
  reach s tr -> no_reset i -> EBarrier b ∈ tr ->
  step s i = Some (s', evs) -> ESettle b res ∈ evs ->
  res = Fulfilled VNull /\ i = Resume /\ last_check b tr = Some 0 /\
  exists eb, q_running (executeFn s) = Some eb /\ e_id eb = b.
Proof.
  intros Hr [Hi1 Hi2] Hbar H Hin.
  pose proof (reach_running_facts _ _ Hr) as Hf.
  destruct (reach_wf _ _ Hr) as [H1 H2 H3 H4 H5 H6 H8 H7].
  clear Hr. unfold running_facts in *. step_cases H.
  all: split_events Hin.
  all: destruct (Hf _ eq_refl) as (Hb & Hu & Hs); specialize (Hs Hbar).
  all: try (destruct (Hb eq_refl) as [_ Hne]; rewrite Hs in Hne; by destruct Hne).
  all: split_and!; try done; try (by apply Hu); by eauto.
Qed.

(** An entry with a smaller number than the running one is not in the
    queue. *)
Lemma before_running_gone s tr eb e :
  reach s tr -> q_running (executeFn s) = Some eb -> (e_id e < e_id eb)%nat ->
  e ∉ q_entries (executeFn s).
Proof.
  intros Hr Hrun Hlt Hin. pose proof (wf_sorted _ _ (reach_wf _ _ Hr)) as Hs.
  unfold q_entries in *. rewrite Hrun in *.
  pose proof (ascending_head _ _ Hs) as Hhd. rewrite Forall_forall in Hhd.
  apply elem_of_cons in Hin as [->|Hin]; [lia|]. apply Hhd in Hin. lia.
Qed.

Lemma endLock_submits s post s2 tr2 :
  run s (EndLock :: post) = Some (s2, tr2) -> EBarrier (next_call s) ∈ tr2.
Proof.
  intros Hrun. simpl in Hrun. unfold endLock in Hrun.
  destruct (submit _ _) as [s1 e1]. destruct (run s1 post) as [[??]|]; [|done].
  simplify_eq. by left.
Qed.

(** The moment the promise of [endLock] settles, with no reset of the lock
    since [endLock] was called. *)
Lemma endLock_barrier pre s tr post s2 tr2 i s3 evs r :
  run init pre = Some (s, tr) ->
  run s (EndLock :: post) = Some (s2, tr2) ->
  Forall no_reset post -> no_reset i ->
  endLock_promise (next_call s) (tr ++ tr2) = None ->
  step s2 i = Some (s3, evs) ->
  endLock_promise (next_call s) ((tr ++ tr2) ++ evs) = Some r ->
  r = Fulfilled VUndefined /\
  ESettle (next_call s) (Fulfilled VNull) ∈ evs /\
  i = Resume /\ last_check (next_call s) (tr ++ tr2) = Some 0 /\
  (forall e, e ∈ q_open (executeFn s) -> done_by e (tr ++ tr2)) /\
  (forall e, e ∈ q_entries (executeFn s) -> e ∉ q_entries (executeFn s2)).
Proof.
  intros Hpre Hrun Hpost Hi Hpend Hstep Hset. apply run_reach in Hpre.
  pose proof (reach_run _ _ _ _ _ Hpre Hrun) as Hr2.
  assert (Hbar : EBarrier (next_call s) ∈ tr ++ tr2).
  { apply elem_of_app. right. by eapply endLock_submits. }
  destruct (endLock_promise_settles _ _ _ _ Hpend Hset Hbar) as (r0 & Hin & ->).
  destruct (sentinel_settle_shape _ _ _ _ _ _ _ Hr2 Hi Hbar Hstep Hin)
    as (-> & -> & Hlast & eb & Heb & Hid).
  assert (Hgone : forall e, e ∈ q_entries (executeFn s) -> e ∉ q_entries (executeFn s2)).
  { intros e He. apply (before_running_gone s2 (tr ++ tr2) eb); [done|done|].
    pose proof (wf_bound _ _ (reach_wf _ _ Hpre)) as Hb. rewrite Forall_forall in Hb.
    rewrite Hid. by apply Hb. }
  split_and!; try done.
  intros e He.
  destruct (barrier_run e (EndLock :: post) s tr s2 tr2 Hpre) as [Hdone|Hopen]; try done.
  - constructor; [split; done|done].
  - by right.
  - exfalso. apply (Hgone e); by apply q_open_entries.
Qed.

(** The promise of [endLock] is pending when [endLock] returns. *)
Lemma endLock_pending s tr :
  reach s tr -> endLock_promise (next_call s) (tr ++ (endLock s).2) = None.
Proof.
  intros Hr. rewrite (endLock_promise_fresh _ _ _ (wf_trace _ _ (reach_wf _ _ Hr))).
  unfold endLock_promise. rewrite decide_True.
  - destruct s as [n [sid d once] [r dis pend] ph nt nx].
    unfold_lock; simpl. by repeat (case_match; simplify_eq/=).
  - unfold endLock. destruct (submit _ _) as [s1 e1]. by left.
Qed.

(** Whenever the promise of [endLock] has settled, with no reset of the
    lock since [endLock] was called, an entry that was in the queue then,
    its caller not yet answered, is through. *)
Lemma endLock_settled_after pre s tr e post :
  run init pre = Some (s, tr) ->
  e ∈ q_open (executeFn s) ->
  Forall no_reset post ->
  forall s2 tr2 r,
    run s (EndLock :: post) = Some (s2, tr2) ->
    endLock_promise (next_call s) (tr ++ tr2) = Some r ->
    done_by e (tr ++ tr2).
Proof.
  intros Hpre Hopen. induction post as [|i post IH] using rev_ind;
    intros Hpost s2 tr2 r Hrun Hset.
  - exfalso. pose proof (endLock_pending s tr (run_reach _ _ _ Hpre)) as Hpend.
    simpl in Hrun. destruct (endLock s) as [s1 e1]. simplify_eq/=.
    rewrite app_nil_r in Hset. by rewrite Hpend in Hset.
  - apply Forall_app in Hpost as [Hpost Hi]. inversion Hi as [|?? Hni _]; subst.
    rewrite app_comm_cons, run_app in Hrun.
    destruct (run s (EndLock :: post)) as [[s1 tr1]|] eqn:Hrun1; [|done].
    simpl in Hrun. destruct (step s1 i) as [[s3 evs]|] eqn:Hstep; [|done].
    simplify_eq/=. rewrite app_nil_r in *. rewrite app_assoc in *.
    apply done_by_app.
    destruct (endLock_promise (next_call s) (tr ++ tr1)) as [r1|] eqn:Hp1.
    + by eapply IH.
    + destruct (endLock_barrier _ _ _ _ _ _ _ _ _ _ Hpre Hrun1 Hpost Hni Hp1 Hstep Hset)
        as (_ & _ & _ & _ & Hdone & _).
      by apply Hdone.
Qed.

(** C1 (as amended): [endLock] is a barrier as long as the lock is not
    reset.  Let [e] be a call that is in the queue, its caller not yet
    answered, when [endLock] is called, and let no [clear] or [cancel]
    follow that call of [endLock].  The promise [endLock] returns is
    pending when [endLock] has returned.  Whenever it has settled, it is
    fulfilled with undefined and [e] is through: the promise of [e] has
    settled with the result of the executor, which for a call of the
    wrapper is the settlement of the user's promise, after the body of [e]
    was invoked.  The turn that settles it is the continuation of the
    executor that ends the sentinel call with null, after the sentinel's
    own wait has read depth zero; and at that moment no entry that was in
    the queue when [endLock] was called is in it any more. *)
Theorem endLock_resolves_after_queued_calls (pre : list input) (s : state)
    (tr : list event) (e : entry) (post : list input) (s2 : state) (tr2 : list event) :
  run init pre = Some (s, tr) ->
  e ∈ q_open (executeFn s) ->
  run s (EndLock :: post) = Some (s2, tr2) ->
  Forall no_reset post ->
  endLock_promise (next_call s) (tr ++ (endLock s).2) = None /\
  (forall r, endLock_promise (next_call s) (tr ++ tr2) = Some r ->
     r = Fulfilled VUndefined /\
     exists u1 u2,
       tr ++ tr2 = u1 ++ ESettle (e_id e) (result_of e) :: u2 /\
       (first (e_args e) <> NEVER_VALUE ->
          result_of e = promise (e_args e) /\ EInvoke (e_id e) (e_args e) ∈ u1)) /\
  (endLock_promise (next_call s) (tr ++ tr2) = None ->
   forall i s3 evs r,
     no_reset i -> step s2 i = Some (s3, evs) ->
     endLock_promise (next_call s) ((tr ++ tr2) ++ evs) = Some r ->
     r = Fulfilled VUndefined /\
     ESettle (next_call s) (Fulfilled VNull) ∈ evs /\
     i = Resume /\
     last_check (next_call s) (tr ++ tr2) = Some 0 /\
     done_by e (tr ++ tr2) /\
     (forall e', e' ∈ q_entries (executeFn s) -> e' ∉ q_entries (executeFn s2))).
Proof.
  intros Hpre Hopen Hrun Hpost. pose proof (run_reach _ _ _ Hpre) as Hr.
  split_and!.
  - by apply endLock_pending.
  - intros r Hset. split.
    + by eapply endLock_promise_undefined, Hset; eapply reach_run.
    + destruct (endLock_settled_after _ _ _ _ _ Hpre Hopen Hpost _ _ _ Hrun Hset)
        as (u1 & u2 & Heq & Hinv).
      exists u1, u2. split; [done|]. intros Hne. split; [|by apply Hinv].
      unfold Lock.result_of. by rewrite decide_False.
  - intros Hpend i s3 evs r Hi Hstep Hset.
    destruct (endLock_barrier _ _ _ _ _ _ _ _ _ _ Hpre Hrun Hpost Hi Hpend Hstep Hset)
      as (? & ? & ? & ? & Hdone & ?).
    split_and!; try done. by apply Hdone.
Qed.

(** C8 (as amended): an [endLock] at depth zero is a barrier all the same,
    as long as the lock is not reset.  The counter stays at zero, the
    sentinel call is still appended to the queue, behind the entries that
    are there, and the promise [endLock] returns follows the promise of
    that call: it is pending when [endLock] has returned.  With no [clear]
    or [cancel] after the call of [endLock], whenever that promise has
    settled it is fulfilled with undefined and every call [e] that was in
    the queue before the sentinel, its caller not yet answered, is
    through. *)
Theorem unmatched_endLock_is_barrier (pre : list input) (s : state)
    (tr : list event) (e : entry) (post : list input) (s2 : state) (tr2 : list event)
    (r : outcome) :
  run init pre = Some (s, tr) ->
  lockCount s = 0 ->
  e ∈ q_open (executeFn s) ->
  run s (EndLock :: post) = Some (s2, tr2) ->
  Forall no_reset post ->
  endLock_promise (next_call s) (tr ++ tr2) = Some r ->
  lockCount (endLock s).1 = 0 /\
  q_entries (executeFn (endLock s).1) =
    q_entries (executeFn s) ++ [mkEntry (next_call s) [NEVER_VALUE]] /\
  EBarrier (next_call s) ∈ tr2 /\
  endLock_promise (next_call s) (tr ++ (endLock s).2) = None /\
  r = Fulfilled VUndefined /\
  done_by e (tr ++ tr2).
Proof.
  intros Hpre Hd Hopen Hrun Hpost Hset. pose proof (run_reach _ _ _ Hpre) as Hr.
  split_and!.
  - destruct (endLock s) as [s1 e1] eqn:He.
    pose proof (step_depth s EndLock s1 e1) as Hs. simpl in Hs. rewrite He in Hs.
    simpl. rewrite Hs by (done || lia). simpl. by rewrite Hd, decide_True.
  - unfold endLock.
    pose proof (submit_entries [NEVER_VALUE]
      (broadcast (lockCount (set_lockCount (Z.max (lockCount s - 1) 0) s))
                 (set_lockCount (Z.max (lockCount s - 1) 0) s))) as Hs.
    destruct (submit _ _) as [s4 e4]. simpl in *. by rewrite Hs.
  - by eapply endLock_submits.
  - by apply endLock_pending.
  - by eapply endLock_promise_undefined, Hset; eapply reach_run.
  - by eapply endLock_settled_after.
Qed.

(** *** A wait that starts at depth zero *)

(** A handler subscribes only after it has read the depth. *)
Lemma subscribe_with_check s i s' evs c b :
  step s i = Some (s', evs) -> ESubscribe c b ∈ evs -> exists v, ECheck c v ∈ evs.
Proof.
  intros H Hin. step_cases H; split_events Hin.
  all: eexists; rewrite ?elem_of_app, ?elem_of_cons; by eauto.
Qed.

Lemma subscribe_after_check s tr c b :
  reach s tr -> ESubscribe c b ∈ tr -> exists v, ECheck c v ∈ tr.
Proof.
  induction 1 as [|s tr i s' evs Hr IH Hs]; intros Hin; [by apply elem_of_nil in Hin|].
  apply elem_of_app in Hin as [Hin|Hin].
  - destruct (IH Hin) as [d Hd]. exists d. apply elem_of_app. by left.
  - destruct (subscribe_with_check _ _ _ _ _ _ Hs Hin) as [d Hd].
    exists d. apply elem_of_app. by right.
Qed.

Lemma ascending_head_ne (a : entry) (l : list entry) :
  ascending (a :: l) -> Forall (fun b => e_id b <> e_id a) l.
Proof.
  intros H. apply ascending_head in H. eapply Forall_impl; [exact H|].
  intros b Hb. simpl in Hb. lia.
Qed.

(** A reading at depth zero resolves the wait: the call that read is the
    running one, its wait is over and it has not subscribed. *)
Lemma check_at_zero s tr i s' evs c v :
  reach s tr -> step s i = Some (s', evs) -> ECheck c v ∈ evs -> lockCount s' = 0 ->
  quiet c s' /\ run_phase s' = Unlocked /\
  (exists e, q_running (executeFn s') = Some e /\ e_id e = c) /\
  (forall b, ESubscribe c b ∉ evs).
Proof.
  intros Hr H Hin Hz. destruct (reach_wf _ _ Hr) as [H1 H2 H3 H4 H5 H6 H8 H7].
  clear Hr. unfold quiet. step_cases H.
  all: unfold q_entries in *; simpl in *.
  all: try (specialize (H6 eq_refl); simplify_eq).
  all: use_handlers H7 H8.
  all: split_events Hin; try lia.
  all: split_Forall.
  all: repeat split; try done; try lia; eauto.
  all: try (intros ? Hs; split_events Hs; done).
  all: try (by intros; simplify_eq/=).
  all: try (by destruct_and?).
  all: apply ascending_head_ne; first [done | by eapply ascending_tail].
Qed.

(** When the wait of a call of the wrapper starts: with the call itself on
    an idle queue, which reads the depth there and then; not before its
    turn comes behind other entries. *)
Lemma call_starts_wait s tr args s1 evs :
  reach s tr -> step s (Call args) = Some (s1, evs) ->
  (forall v, ECheck (next_call s) v ∉ tr) /\
  (q_running (executeFn s) = None -> ECheck (next_call s) (lockCount s) ∈ evs) /\
  (q_running (executeFn s) <> None -> evs = [ECall (next_call s) args]).
Proof.
  intros Hr H. destruct (reach_wf _ _ Hr) as [H1 H2 H3 H4 H5 H6 H8 H7]. clear Hr.
  split.
  { intros v Hin. rewrite Forall_forall in H5. apply H5 in Hin. simpl in Hin. lia. }
  step_cases H; simpl in *; simplify_eq/=.
  all: split; intros Hq; try done.
  all: try (by specialize (H6 eq_refl)).
  all: rewrite ?elem_of_cons; by eauto.
Qed.

(** C9 (as amended): a wait that starts while the depth counter is zero
    resolves on its first, synchronous reading of the broadcast object's
    current value.  Every reading is the depth of that moment.  When the
    first reading of call [c] is made at depth zero, it is a reading of
    zero and resolves the wait in the same turn: [c] is the running call,
    its handler is neither subscribed nor scheduled, the continuation
    that runs the body is enabled at once with no notification in between,
    and whatever happens afterwards the wait of [c] never reads the depth
    again and never subscribes.  The wait of a call of the wrapper starts
    with the call itself when the queue is idle, and only when its turn
    comes when other entries are ahead of it. *)
Theorem wait_at_depth_zero_resolves_at_once (pre : list input) (s : state)
    (tr : list event) (i : input) (s1 : state) (evs : list event) (c : nat) :
  run init pre = Some (s, tr) ->
  step s i = Some (s1, evs) ->
  (forall v, ECheck c v ∈ evs -> v = lockCount s1) /\
  (forall v, (forall v', ECheck c v' ∉ tr) -> ECheck c v ∈ evs -> lockCount s1 = 0 ->
     v = 0 /\
     exists e,
       q_running (executeFn s1) = Some e /\ e_id e = c /\
       run_phase s1 = Unlocked /\
       (c ∉ bs_once (lockSubject s1)) /\ (c ∉ notified s1) /\
       (forall b, ESubscribe c b ∉ tr ++ evs) /\
       (first (e_args e) <> NEVER_VALUE ->
          step s1 Resume = Some (set_phase InBody s1, [EInvoke c (e_args e)])) /\
       forall post s2 tr2, run s1 post = Some (s2, tr2) ->
         (forall v', ECheck c v' ∉ tr2) /\ (forall b, ESubscribe c b ∉ tr2)) /\
  (forall args, i = Call args ->
     (forall v, ECheck (next_call s) v ∉ tr) /\
     (q_running (executeFn s) = None -> ECheck (next_call s) (lockCount s) ∈ evs) /\
     (q_running (executeFn s) <> None -> evs = [ECall (next_call s) args])).
Proof.
  intros Hpre Hstep. apply run_reach in Hpre.
  assert (Hr1 : reach s1 (tr ++ evs)) by (by econstructor).
  split_and!.
  - intros v Hin. exact (check_reads_depth _ _ _ _ _ _ _ Hpre Hstep Hin).
  - intros v Hfirst Hin Hz.
    pose proof (check_reads_depth _ _ _ _ _ _ _ Hpre Hstep Hin) as Hv.
    destruct (check_at_zero _ _ _ _ _ _ _ Hpre Hstep Hin Hz)
      as (Hq & Hph & (e & He & Hid) & Hsub).
    split; [lia|]. exists e.
    pose proof (reach_handlers _ _ Hr1) as Hh.
    unfold handlers, expected_handlers in Hh. rewrite He, Hph in Hh.
    apply app_eq_nil in Hh as [Hn Ho].
    split_and!; try done.
    + rewrite Ho. apply not_elem_of_nil.
    + rewrite Hn. apply not_elem_of_nil.
    + intros b [Hb|Hb]%elem_of_app; [|by apply (Hsub b)].
      destruct (subscribe_after_check _ _ _ _ Hpre Hb) as [v' Hv']. by apply (Hfirst v').
    + intros Hne. simpl. rewrite He, Hph. unfold resume. rewrite decide_False by done.
      by rewrite Hid.
    + intros post s2 tr2 Hpost. exact (quiet_run _ _ _ _ _ _ Hr1 Hq Hpost).
  - intros args ->. exact (call_starts_wait _ _ _ _ _ Hpre Hstep).
Qed.

End Facts.

(** *** The theorems at work *)

(** Membership in an explicit list. *)
Ltac find_event := repeat (first [ by left | right ]).

(** No event of the list is of the given shape. *)
Ltac no_event :=
  let Hin := fresh "Hin" in
  intros ? Hin;
  repeat (apply elem_of_cons in Hin as [Hin|Hin]; [discriminate Hin|]);
  by apply elem_of_nil in Hin.

(** C1 as stated fails: [clear], called after [endLock] while call 0
    still waits, answers the sentinel call with the cancellation marker,
    and the promise of [endLock] is fulfilled although the body of call 0
    has not been invoked and its promise has not settled.  With [cancel]
    the promise of call 0 has settled, but with the marker, and its body
    has not been invoked either. *)
Lemma clear_resolves_endLock_early :
  (exists s tr,
     Lock.run echo init [BeginLock; Call [VNum 42]; EndLock; Clear] = Some (s, tr) /\
     EBarrier 1 ∈ tr /\
     endLock_promise 1 tr = Some (Fulfilled VUndefined) /\
     q_running (executeFn s) = Some (mkEntry 0 [VNum 42]) /\
     (forall a, EInvoke 0 a ∉ tr) /\ (forall r, ESettle 0 r ∉ tr)) /\
  (exists s tr,
     Lock.run echo init [BeginLock; Call [VNum 42]; EndLock; Cancel] = Some (s, tr) /\
     endLock_promise 1 tr = Some (Fulfilled VUndefined) /\
     q_running (executeFn s) = Some (mkEntry 0 [VNum 42]) /\
     (forall a, EInvoke 0 a ∉ tr) /\
     (forall r, ESettle 0 r ∈ tr -> r = Fulfilled CANCELED_SYMBOL)).
Proof.
  split.
  - eexists _, _. split; [vm_compute; reflexivity|]. split; [find_event|].
    split; [vm_compute; reflexivity|]. split; [reflexivity|]. split; no_event.
  - eexists _, _. split; [vm_compute; reflexivity|].
    split; [vm_compute; reflexivity|]. split; [reflexivity|]. split; [no_event|].
    intros r Hin.
    repeat (apply elem_of_cons in Hin as [Hin|Hin]; [by simplify_eq|]).
    by apply elem_of_nil in Hin.
Qed.

(** C1 as amended, on the scenario of the specification: [beginLock()];
    [wrappedFn(42)] waits; [endLock()]; the broadcast reaches the handler,
    the executor continues, the user's promise settles, the sentinel call
    ends.  The promise of [endLock] is pending when [endLock] has
    returned; once it is fulfilled, with undefined, the body of call 0 has
    been invoked and its promise has settled with 42. *)
Lemma endLock_resolves_after_queued_calls_witness :
  endLock_promise 1 [ECall 0 [VNum 42]; ECheck 0 1; ESubscribe 0 0; EBarrier 1] = None /\
  endLock_promise 1 scenario_trace = Some (Fulfilled VUndefined) /\
  exists u1 u2,
    scenario_trace = u1 ++ ESettle 0 (Fulfilled (VNum 42)) :: u2 /\
    EInvoke 0 [VNum 42] ∈ u1.
Proof.
  destruct (endLock_resolves_after_queued_calls echo
    [BeginLock; Call [VNum 42]] held_waiting
    [ECall 0 [VNum 42]; ECheck 0 1; ESubscribe 0 0]
    (mkEntry 0 [VNum 42])
    [Deliver; Resume; Settle; Resume] scenario_end
    [EBarrier 1; ECheck 0 0; EInvoke 0 [VNum 42]; ESettle 0 (Fulfilled (VNum 42));
     ECheck 1 0; ESkip 1; ESettle 1 (Fulfilled VNull)])
    as (Hpend & Hset & _).
  - reflexivity.
  - simpl. by left.
  - reflexivity.
  - repeat constructor; done.
  - destruct (Hset (Fulfilled VUndefined) eq_refl) as (_ & u1 & u2 & Heq & Hinv).
    split; [exact Hpend|]. split; [reflexivity|].
    exists u1, u2. split; [exact Heq|]. by apply Hinv.
Defined.

(** C2 as stated fails: a call made at depth zero passes its check at
    once; a [beginLock] issued before the continuation of the executor does
    not hold the body back, which is invoked at depth one. *)
Lemma body_runs_while_locked :
  exists s tr s' evs,
    Lock.run echo init [Call [VNum 42]; BeginLock] = Some (s, tr) /\
    Lock.step echo s Resume = Some (s', evs) /\
    lockCount s = 1 /\ lockCount s' = 1 /\
    EInvoke 0 [VNum 42] ∈ evs.
Proof.
  eexists _, _, _, _. split; [vm_compute; reflexivity|]. split; [vm_compute; reflexivity|].
  split; [vm_compute; reflexivity|]. split; [vm_compute; reflexivity|]. by left.
Qed.

(** The same after a release: the handler reads zero on [endLock], a new
    [beginLock] comes before the continuation, and the body runs locked. *)
Example body_runs_after_relock :
  exists s tr s' evs,
    Lock.run echo init [BeginLock; Call [VNum 42]; EndLock; Deliver; BeginLock]
      = Some (s, tr) /\
    Lock.step echo s Resume = Some (s', evs) /\
    lockCount s = 1 /\ EInvoke 0 [VNum 42] ∈ evs.
Proof.
  eexists _, _, _, _. split; [vm_compute; reflexivity|]. split; [vm_compute; reflexivity|].
  split; [vm_compute; reflexivity|]. by left.
Qed.

(** C2 as amended, on the scenario of the specification: when the body of
    call 0 is invoked, the last depth its wait has read is zero. *)
Lemma body_after_observed_unlock_witness :
  last_check 0 [ECall 0 [VNum 42]; ECheck 0 1; ESubscribe 0 0; EBarrier 1; ECheck 0 0]
    = Some 0.
Proof.
  destruct (body_after_observed_unlock echo
    [BeginLock; Call [VNum 42]; EndLock; Deliver] _ _ Resume _ _ 0%nat
    eq_refl eq_refl) as (Hinv & _).
  destruct (Hinv [VNum 42]) as (_ & _ & Hlast); [by left|exact Hlast].
Defined.

(** C3: two [beginLock] need two [endLock]; a third [endLock] leaves the
    counter at zero. *)
Lemma depth_reentrant_clamped_witness :
  lockCount (beginLock init) = 1 /\
  lockCount (endLock init).1 = 0 /\
  exists s2 tr2,
    Lock.run echo init (repeat BeginLock 2 ++ repeat EndLock 3) = Some (s2, tr2) /\
    lockCount s2 = 0.
Proof.
  destruct (depth_reentrant_clamped echo init [BeginLock] (beginLock init) []
    2 3 (Z.le_refl 0) eq_refl) as (Hb & He & _ & _ & s2 & tr2 & Hrun & Hd & _).
  split; [exact Hb|]. split; [exact He|]. exists s2, tr2. split; [exact Hrun|].
  rewrite Hd. reflexivity.
Defined.


(** C5: the sentinel call of an [endLock] behind a running call goes
    through the queue and ends without an invocation of the user's
    function. *)
Lemma endLock_sentinel_noop_witness :
  exists s tr s2 tr2,
    Lock.run echo init [Call [VNum 7]] = Some (s, tr) /\
    Lock.run echo s [EndLock; Resume; Settle; Resume] = Some (s2, tr2) /\
    ESkip 1 ∈ tr2 /\ ESettle 1 (Fulfilled VNull) ∈ tr2 /\
    forall a, EInvoke 1 a ∉ tr ++ tr2.
Proof.
  eexists _, _, _, _. split; [vm_compute; reflexivity|]. split; [vm_compute; reflexivity|].
  split; [find_event|]. split; [find_event|].
  destruct (endLock_sentinel_noop echo [Call [VNum 7]] _ _ [Resume; Settle; Resume]
    _ _ eq_refl eq_refl) as (_ & _ & _ & _ & _ & Hno).
  exact Hno.
Defined.

(** C8 as stated fails: at depth zero, with call 0 running, [endLock]
    queues its sentinel call behind it; a [clear] answers the sentinel
    call with the cancellation marker, and the promise of [endLock] is
    fulfilled before call 0 has completed: its body has not even been
    invoked. *)
Lemma clear_resolves_unmatched_endLock_early :
  exists s tr s' tr',
    Lock.run echo init [Call [VNum 42]] = Some (s, tr) /\
    lockCount s = 0 /\
    Lock.run echo s [EndLock; Clear] = Some (s', tr') /\
    EBarrier 1 ∈ tr' /\
    endLock_promise 1 (tr ++ tr') = Some (Fulfilled VUndefined) /\
    q_running (executeFn s') = Some (mkEntry 0 [VNum 42]) /\
    (forall a, EInvoke 0 a ∉ tr ++ tr') /\ (forall r, ESettle 0 r ∉ tr ++ tr').
Proof.
  eexists _, _, _, _. split; [vm_compute; reflexivity|]. split; [reflexivity|].
  split; [vm_compute; reflexivity|]. split; [find_event|].
  split; [vm_compute; reflexivity|]. split; [reflexivity|]. split; no_event.
Qed.

(** C8 as amended: [endLock] with nothing locked, behind a call whose body
    runs: once the promise of [endLock] is fulfilled, that call is
    through. *)
Lemma unmatched_endLock_is_barrier_witness :
  exists s tr s2 tr2,
    Lock.run echo init [Call [VNum 42]; Resume] = Some (s, tr) /\
    lockCount s = 0 /\
    Lock.run echo s [EndLock; Settle; Resume] = Some (s2, tr2) /\
    endLock_promise 1 (tr ++ tr2) = Some (Fulfilled VUndefined) /\
    Lock.done_by echo (mkEntry 0 [VNum 42]) (tr ++ tr2).
Proof.
  eexists _, _, _, _. split; [vm_compute; reflexivity|]. split; [vm_compute; reflexivity|].
  split; [vm_compute; reflexivity|]. split; [vm_compute; reflexivity|].
  destruct (unmatched_endLock_is_barrier echo [Call [VNum 42]; Resume]
    (mkState 0 (mkSubject 0 0 []) (mkQueue (Some (mkEntry 0 [VNum 42])) false [])
       InBody [] 1)
    [ECall 0 [VNum 42]; ECheck 0 0; EInvoke 0 [VNum 42]]
    (mkEntry 0 [VNum 42]) [Settle; Resume] scenario_end
    [EBarrier 1; ESettle 0 (Fulfilled (VNum 42)); ECheck 1 0; ESkip 1;
     ESettle 1 (Fulfilled VNull)]
    (Fulfilled VUndefined)
    eq_refl eq_refl ltac:(by left) eq_refl ltac:(repeat constructor; done)
    eq_refl) as (_ & _ & _ & _ & _ & Hdone).
  exact Hdone.
Defined.

(** C9 as stated fails: a call made at depth zero behind a running call
    starts only when that call is through; the lock was taken meanwhile,
    so its first reading is one and it subscribes. *)
Lemma queued_call_at_depth_zero_subscribes :
  exists s tr s' tr',
    Lock.run echo init [Call [VNum 1]; Resume] = Some (s, tr) /\
    lockCount s = 0 /\ next_call s = 1%nat /\
    Lock.run echo s [Call [VNum 2]; BeginLock; Settle] = Some (s', tr') /\
    tr' = [ECall 1 [VNum 2]; ESettle 0 (Fulfilled (VNum 1)); ECheck 1 1; ESubscribe 1 0] /\
    bs_once (lockSubject s') = [1%nat].
Proof.
  eexists _, _, _, _. repeat (split; [vm_compute; reflexivity|]). reflexivity.
Qed.

(** C9 as amended, for a call that was queued behind a running call and
    whose turn comes at depth zero: its first reading is zero, it never
    subscribes, and the continuation that runs its body is enabled at
    once. *)
Lemma wait_at_depth_zero_resolves_at_once_witness :
  Lock.step echo
    (mkState 0 (mkSubject 0 0 [])
       (mkQueue (Some (mkEntry 0 [VNum 1])) false [mkEntry 1 [VNum 2]]) InBody [] 2)
    Settle =
    Some (mkState 0 (mkSubject 0 0 []) (mkQueue (Some (mkEntry 1 [VNum 2])) false [])
            Unlocked [] 2,
          [ESettle 0 (Fulfilled (VNum 1)); ECheck 1 0]) /\
  (forall b, ESubscribe 1 b ∉
     [ECall 0 [VNum 1]; ECheck 0 0; EInvoke 0 [VNum 1]; ECall 1 [VNum 2]]
     ++ [ESettle 0 (Fulfilled (VNum 1)); ECheck 1 0]) /\
  Lock.step echo
    (mkState 0 (mkSubject 0 0 []) (mkQueue (Some (mkEntry 1 [VNum 2])) false [])
       Unlocked [] 2)
    Resume =
    Some (mkState 0 (mkSubject 0 0 []) (mkQueue (Some (mkEntry 1 [VNum 2])) false [])
            InBody [] 2,
          [EInvoke 1 [VNum 2]]).
Proof.
  destruct (wait_at_depth_zero_resolves_at_once echo
    [Call [VNum 1]; Resume; Call [VNum 2]]
    (mkState 0 (mkSubject 0 0 [])
       (mkQueue (Some (mkEntry 0 [VNum 1])) false [mkEntry 1 [VNum 2]]) InBody [] 2)
    [ECall 0 [VNum 1]; ECheck 0 0; EInvoke 0 [VNum 1]; ECall 1 [VNum 2]]
    Settle
    (mkState 0 (mkSubject 0 0 []) (mkQueue (Some (mkEntry 1 [VNum 2])) false [])
       Unlocked [] 2)
    [ESettle 0 (Fulfilled (VNum 1)); ECheck 1 0] 1%nat eq_refl eq_refl)
    as (_ & Hfirst & _).
  destruct (Hfirst 0) as (_ & e & _ & _ & _ & _ & _ & Hsub & _).
  - no_event.
  - find_event.
  - reflexivity.
  - split; [reflexivity|]. split; [exact Hsub|reflexivity].
Defined.

(** C10: with ordinary arguments the sentinel branch is taken for the
    sentinel call of [endLock] only. *)
Lemma sentinel_branch_private_witness :
  exists s tr,
    Lock.run echo init
      [BeginLock; Call [VNum 42]; EndLock; Deliver; Resume; Settle; Resume] = Some (s, tr) /\
    EInvoke 0 [VNum 42] ∈ tr /\ ESkip 1 ∈ tr /\
    forall c, ESkip c ∈ tr -> EBarrier c ∈ tr /\ forall a, ECall c a ∉ tr.
Proof.
  eexists _, _. split; [vm_compute; reflexivity|]. split; [find_event|].
  split; [find_event|].
  destruct (sentinel_branch_private echo
    [BeginLock; Call [VNum 42]; EndLock; Deliver; Resume; Settle; Resume]
    _ _ eq_refl) as (_ & Hskip & _); [|exact Hskip].
  intros args Hin.
  repeat (apply elem_of_cons in Hin as [Heq|Hin];
          [by simplify_eq; repeat constructor|]).
  by apply elem_of_nil in Hin.
Defined.

(** *** The further properties at work *)

(** X1: with the lock held by one [beginLock] and a call waiting, the
    subject holds 1, the depth. *)
Lemma subject_mirrors_depth_witness :
  bs_data (lockSubject held_waiting) = lockCount held_waiting /\
  (bs_once (lockSubject held_waiting) <> [] -> 0 < lockCount held_waiting).
Proof.
  exact (subject_mirrors_depth echo [BeginLock; Call [VNum 42]] held_waiting
           [ECall 0 [VNum 42]; ECheck 0 1; ESubscribe 0 0] eq_refl).
Defined.

(** X2: in that state the handler of call 0 is the only one; after the
    scenario has run to its end there is none. *)
Lemma one_handler_while_waiting_witness :
  notified held_waiting ++ bs_once (lockSubject held_waiting) = [0%nat] /\
  notified scenario_end ++ bs_once (lockSubject scenario_end) = [].
Proof.
  split.
  - exact (one_handler_while_waiting echo [BeginLock; Call [VNum 42]] held_waiting
             [ECall 0 [VNum 42]; ECheck 0 1; ESubscribe 0 0] eq_refl).
  - exact (one_handler_while_waiting echo
             [BeginLock; Call [VNum 42]; EndLock; Deliver; Resume; Settle; Resume]
             scenario_end scenario_trace eq_refl).
Defined.

(** X3: after [endLock] the waiting call 0 is woken: the delivery reads
    zero and the continuation invokes its body. *)
Lemma waiting_call_wakes_at_zero_witness :
  exists s1,
    Lock.step echo released_waiting Deliver = Some (s1, [ECheck 0 0]) /\
    run_phase s1 = Unlocked /\
    Lock.step echo s1 Resume = Some (set_phase InBody s1, [EInvoke 0 [VNum 42]]).
Proof.
  destruct (waiting_call_wakes_at_zero echo [BeginLock; Call [VNum 42]; EndLock]
    released_waiting [ECall 0 [VNum 42]; ECheck 0 1; ESubscribe 0 0; EBarrier 1]
    (mkEntry 0 [VNum 42]) eq_refl eq_refl eq_refl eq_refl)
    as (s1 & Hstep & Hph & _ & _ & Hres).
  exists s1. split; [exact Hstep|]. split; [exact Hph|]. by apply Hres.
Defined.

(** X4: [clear] on the held lock releases the waiting call 0 and answers
    the queued call 1 with the cancellation marker. *)
Lemma clear_releases_waiting_call_witness :
  exists s3,
    Lock.run echo held_queued [Clear; Deliver; Resume] =
      Some (s3, [ESettle 1 (Fulfilled CANCELED_SYMBOL); ECheck 0 0;
                 EInvoke 0 [VNum 42]]) /\
    run_phase s3 = InBody /\ lockCount s3 = 0.
Proof.
  destruct (clear_releases_waiting_call echo
    [BeginLock; Call [VNum 42]; Call [VNum 43]] held_queued
    [ECall 0 [VNum 42]; ECheck 0 1; ESubscribe 0 0; ECall 1 [VNum 43]]
    (mkEntry 0 [VNum 42]) eq_refl eq_refl eq_refl ltac:(done))
    as (s3 & Hrun & Hph & _ & Hd).
  exists s3. split; [exact Hrun|]. split; [exact Hph|exact Hd].
Defined.

(** X5: in the scenario the body of call 0 is the only one invoked, once,
    with the argument of the call. *)
Lemma body_invoked_once_with_call_args_witness :
  (forall c a, EInvoke c a ∈ scenario_trace ->
     ECall c a ∈ scenario_trace /\
     Call a ∈ [BeginLock; Call [VNum 42]; EndLock; Deliver; Resume; Settle; Resume] /\
     first a <> NEVER_VALUE) /\
  NoDup (invoked scenario_trace).
Proof.
  exact (body_invoked_once_with_call_args echo
           [BeginLock; Call [VNum 42]; EndLock; Deliver; Resume; Settle; Resume]
           scenario_end scenario_trace eq_refl).
Defined.

(** X6: in the scenario call 0 settles with what the user's function made
    of its argument. *)
Lemma call_settles_with_function_result_witness :
  Fulfilled (VNum 42) = Fulfilled CANCELED_SYMBOL \/
  (first [VNum 42] <> NEVER_VALUE /\ Fulfilled (VNum 42) = echo [VNum 42] /\
   EInvoke 0 [VNum 42] ∈ scenario_trace) \/
  (first [VNum 42] = NEVER_VALUE /\ Fulfilled (VNum 42) = Fulfilled VNull /\
   forall a', EInvoke 0 a' ∉ scenario_trace).
Proof.
  apply (call_settles_with_function_result echo
           [BeginLock; Call [VNum 42]; EndLock; Deliver; Resume; Settle; Resume]
           scenario_end scenario_trace 0%nat [VNum 42] (Fulfilled (VNum 42)) eq_refl).
  - unfold scenario_trace. find_event.
  - unfold scenario_trace. find_event.
Defined.

(** X7: the [endLock] that matches a single [beginLock] is fulfilled with
    undefined after one continuation; the promise of the inner [endLock]
    of a nested lock stays pending. *)
Lemma endLock_on_idle_lock_witness :
  (exists s2,
     Lock.run echo (beginLock init) [EndLock; Resume] =
       Some (s2, [EBarrier 0; ECheck 0 0; ESkip 0; ESettle 0 (Fulfilled VNull)]) /\
     endLock_promise 0 [EBarrier 0; ECheck 0 0] = None /\
     endLock_promise 0 [EBarrier 0; ECheck 0 0; ESkip 0; ESettle 0 (Fulfilled VNull)]
       = Some (Fulfilled VUndefined) /\
     lockCount s2 = 0) /\
  (exists s1,
     Lock.step echo (beginLock (beginLock init)) EndLock =
       Some (s1, [EBarrier 0; ECheck 0 1; ESubscribe 0 0]) /\
     endLock_promise 0 [EBarrier 0; ECheck 0 1; ESubscribe 0 0] = None /\
     Lock.step echo s1 Resume = None /\ Lock.step echo s1 Deliver = None /\
     Lock.step echo s1 Settle = None).
Proof.
  split.
  - destruct (endLock_on_idle_lock echo [BeginLock] (beginLock init) [] eq_refl eq_refl)
      as [Hone _].
    destruct (Hone ltac:(done)) as (s2 & Hrun & Hpend & Hset & Hd & _).
    exists s2. split; [exact Hrun|]. split; [exact Hpend|]. split; [exact Hset|exact Hd].
  - destruct (endLock_on_idle_lock echo [BeginLock; BeginLock]
                (beginLock (beginLock init)) [] eq_refl eq_refl) as [_ Htwo].
    destruct (Htwo ltac:(done)) as (s1 & Hstep & Hpend & _ & _ & _ & Hres & Hdel & Hset).
    exists s1. split; [exact Hstep|]. split; [exact Hpend|].
    split; [exact Hres|]. split; [exact Hdel|exact Hset].
Defined.

(** X8: call 0 waits on the held lock; a nested [beginLock] and its
    [endLock], a delivery and a new call leave the depth above zero, and
    the body of call 0 is not invoked. *)
Lemma held_lock_blocks_body_witness :
  Lock.run echo held_waiting [BeginLock; EndLock; Deliver; Call [VNum 43]] =
    Some (held_behind,
          [EBarrier 1; ECheck 0 1; ESubscribe 0 0; ECall 2 [VNum 43]]) /\
  forall a, EInvoke 0 a ∉
    [EBarrier 1; ECheck 0 1; ESubscribe 0 0; ECall 2 [VNum 43]].
Proof.
  split; [reflexivity|].
  apply (held_lock_blocks_body echo [BeginLock; Call [VNum 42]] held_waiting
    [ECall 0 [VNum 42]; ECheck 0 1; ESubscribe 0 0] 0%nat
    [BeginLock; EndLock; Deliver; Call [VNum 43]] held_behind).
  - reflexivity.
  - vm_compute. discriminate.
  - vm_compute. repeat split.
  - reflexivity.
Defined.

(** X9: the lock released with call 0 waiting, call 1 and the sentinel of
    [endLock] queued, runs empty by scheduler turns alone, and calls 0 and
    1 are through. *)
Lemma released_lock_drains_witness :
  exists sched s' tr',
    Forall scheduler_turn sched /\
    Lock.run echo released_queued sched = Some (s', tr') /\
    q_running (executeFn s') = None /\ q_pending (executeFn s') = [] /\
    Lock.done_by echo (mkEntry 1 [VNum 43])
      ([ECall 0 [VNum 42]; ECheck 0 1; ESubscribe 0 0; ECall 1 [VNum 43];
        EBarrier 2] ++ tr').
Proof.
  destruct (released_lock_drains echo
    [BeginLock; Call [VNum 42]; Call [VNum 43]; EndLock] released_queued
    [ECall 0 [VNum 42]; ECheck 0 1; ESubscribe 0 0; ECall 1 [VNum 43]; EBarrier 2]
    eq_refl eq_refl)
    as (sched & s' & tr' & Hall & Hrun & Hq & Hp & _ & Hdone).
  exists sched, s', tr'. split; [exact Hall|]. split; [exact Hrun|].
  split; [exact Hq|]. split; [exact Hp|].
  apply Hdone. unfold q_open. simpl. find_event.
Defined.

End LockFacts.
